(** * IDS dashboard: webhook ingestion and dashboard aggregation

    A shallow embedding of the two TypeScript units of the repository:

    - the webhook route ([getClient], [POST], [GET]), which validates an
      incoming JSON payload, normalises it and appends it to the MongoDB
      collection [events], and serves the 200 most recent events;
    - the dashboard page ([computeTimeSeries], [computeTitleBars] and the
      three statistics of [Home]), which aggregates the fetched window.

    JavaScript strings are represented by [string]; every string the code
    inspects character by character (ISO timestamps, bucket keys, property
    names of [Object.prototype], array indices) is ASCII, and titles are only
    ever compared for equality. *)

From Stdlib Require Import ZArith NArith List String Ascii Bool Lia.
From Stdlib Require Import Permutation Sorted.
Import ListNotations.

Set Warnings "-register-all".

Local Open Scope string_scope.
Local Open Scope list_scope.
Local Open Scope Z_scope.

(** ** The JavaScript values and built-ins the code relies on *)

Module JS.

(** A value produced by [JSON.parse]. The type of numbers is left to the
    host (see [Host]); an object lists its own properties. *)
Inductive json (number : Type) : Type :=
| JNull
| JBool (b : bool)
| JNumber (n : number)
| JString (s : string)
| JArray (items : list (json number))
| JObject (members : list (string * json number)).

Arguments JNull {number}.
Arguments JBool {number} b.
Arguments JNumber {number} n.
Arguments JString {number} s.
Arguments JArray {number} items.
Arguments JObject {number} members.

(** A [Date] object: a time value in milliseconds since the epoch, or the
    invalid date (time value NaN). *)
Inductive Date : Type :=
| DateAt (ms : Z)
| InvalidDate.

(** What the JavaScript engine decides and the source does not: the IEEE
    numbers, [Date.parse] (implementation-defined outside the ISO format),
    the string an array or object converts to, and the source text of a
    native function. *)
Class Host : Type := {
  number : Type;
  (** [ToBoolean] of a number: false exactly on +0 and -0. *)
  number_truthy : number -> bool;
  (** [TimeClip] of a number, [None] when it yields NaN. *)
  number_time : number -> option Z;
  (** [Date.parse], [None] for NaN. *)
  Date_parse : string -> option Z;
  (** [ToPrimitive] of an array or a plain object, always a string. *)
  object_toString : json number -> string;
  (** [String(f)] for the native function named [f]. *)
  native_source : string -> string
}.

(** Exceptions that the code can meet. *)
Inductive JsError : Type :=
| SyntaxError          (* request.json() on a body that is not JSON *)
| TypeError            (* destructuring null *)
| RangeError           (* toISOString on an invalid date *)
| MongoParseError      (* new MongoClient(uri) on a malformed uri *)
| MongoNetworkError    (* connect() rejected *)
| MongoServerError.    (* an operation on the collection rejected *)

Inductive Result (A : Type) : Type :=
| Ok (a : A)
| Throw (e : JsError).

Arguments Ok {A} a.
Arguments Throw {A} e.

(** Code that reads and writes a state [S] and may throw; the state
    written before a throw is kept, as in JavaScript. *)
Definition M (S A : Type) : Type := S -> Result A * S.

Definition ret {S A : Type} (a : A) : M S A := fun s => (Ok a, s).

Definition throw {S A : Type} (e : JsError) : M S A := fun s => (Throw e, s).

Definition bind {S A B : Type} (m : M S A) (k : A -> M S B) : M S B :=
  fun s =>
    match m s with
    | (Ok a, s') => k a s'
    | (Throw e, s') => (Throw e, s')
    end.

(** [try { body } catch (error) { handler }], both ending in [return]. *)
Definition try_catch {S A : Type} (body : M S A) (handler : JsError -> S -> A * S)
  : S -> A * S :=
  fun s =>
    match body s with
    | (Ok a, s') => (a, s')
    | (Throw e, s') => handler e s'
    end.

Definition get {S : Type} : M S S := fun s => (Ok s, s).

(** [xs.forEach(x => { acc = body(acc, x) })] for a body that may throw. *)
Fixpoint forEach {S A B : Type} (xs : list A) (body : B -> A -> M S B) (acc : B)
  : M S B :=
  match xs with
  | [] => ret acc
  | x :: xs' => bind (body acc x) (fun acc' => forEach xs' body acc')
  end.

Section Values.
Context `{Host}.

(** A JavaScript value read from the payload: [None] is [undefined]. *)
Definition value : Type := option (json number).

(** [ToBoolean] *)
Definition truthy (v : value) : bool :=
  match v with
  | None => false
  | Some JNull => false
  | Some (JBool b) => b
  | Some (JNumber n) => number_truthy n
  | Some (JString s) => negb (s =? "")%string
  | Some (JArray _) => true
  | Some (JObject _) => true
  end.

Definition typeof (v : value) : string :=
  match v with
  | None => "undefined"
  | Some JNull => "object"
  | Some (JBool _) => "boolean"
  | Some (JNumber _) => "number"
  | Some (JString _) => "string"
  | Some (JArray _) => "object"
  | Some (JObject _) => "object"
  end.

Definition of_time (t : option Z) : Date :=
  match t with
  | Some ms => DateAt ms
  | None => InvalidDate
  end.

(** [new Date(v)] *)
Definition new_Date_of (v : value) : Date :=
  match v with
  | None => InvalidDate
  | Some JNull => DateAt 0
  | Some (JBool b) => DateAt (if b then 1 else 0)
  | Some (JNumber n) => of_time (number_time n)
  | Some (JString s) => of_time (Date_parse s)
  | Some (JArray items) => of_time (Date_parse (object_toString (JArray items)))
  | Some (JObject ms) => of_time (Date_parse (object_toString (JObject ms)))
  end.

End Values.

(** [data.k] for a parsed JSON value other than null: an own property of an
    object; arrays, strings, numbers and booleans have no property of the
    names the route reads. *)
Fixpoint assoc {V : Type} (k : string) (l : list (string * V)) : option V :=
  match l with
  | [] => None
  | (k', v) :: l' => if (k' =? k)%string then Some v else assoc k l'
  end.

Definition get_prop {number : Type} (data : json number) (k : string)
  : option (json number) :=
  match data with
  | JObject members => assoc k members
  | _ => None
  end.

(** *** [Date.prototype.toISOString] *)

Definition msPerDay : Z := 86400000.

(** Year, month (1..12) and day of month of a day number counted from the
    epoch, in the proleptic Gregorian calendar. *)
Definition civil_from_days (days : Z) : Z * Z * Z :=
  let z := days + 719468 in
  let era := z / 146097 in
  let doe := z - era * 146097 in
  let yoe := (doe - doe / 1460 + doe / 36524 - doe / 146096) / 365 in
  let doy := doe - (365 * yoe + yoe / 4 - yoe / 100) in
  let mp := (5 * doy + 2) / 153 in
  let d := doy - (153 * mp + 2) / 5 + 1 in
  let m := if mp <? 10 then mp + 3 else mp - 9 in
  let y := yoe + era * 400 + (if m <=? 2 then 1 else 0) in
  (y, m, d).

Definition days_from_civil (y m d : Z) : Z :=
  let y' := if m <=? 2 then y - 1 else y in
  let era := y' / 400 in
  let yoe := y' - era * 400 in
  let mp := if m <=? 2 then m + 9 else m - 3 in
  let doy := (153 * mp + 2) / 5 + d - 1 in
  let doe := yoe * 365 + yoe / 4 - yoe / 100 + doy in
  era * 146097 + doe - 719468.

Definition digit_char (n : Z) : ascii :=
  ascii_of_N (48 + Z.to_N (n mod 10)).

(** The [width] least significant decimal digits of [n], zero padded. *)
Fixpoint pad (width : nat) (n : Z) : string :=
  match width with
  | O => ""
  | S w => String (digit_char (n / 10 ^ Z.of_nat w)) (pad w n)
  end.

Definition year_string (y : Z) : string :=
  if (0 <=? y) && (y <=? 9999) then pad 4 y
  else ((if (y <? 0)%Z then "-" else "+") ++ pad 6 (Z.abs y))%string.

Definition iso_of_time (t : Z) : string :=
  let '(y, m, d) := civil_from_days (t / msPerDay) in
  let r := t mod msPerDay in
  (year_string y ++ "-" ++ pad 2 m ++ "-" ++ pad 2 d ++ "T"
     ++ pad 2 (r / 3600000) ++ ":" ++ pad 2 (r / 60000 mod 60) ++ ":"
     ++ pad 2 (r / 1000 mod 60) ++ "." ++ pad 3 (r mod 1000) ++ "Z")%string.

Definition toISOString {S : Type} (d : Date) : M S string :=
  match d with
  | DateAt t => ret (iso_of_time t)
  | InvalidDate => throw RangeError
  end.

(** [s.slice(0, n)] *)
Definition slice0 (n : nat) (s : string) : string := substring 0 n s.

(** The pieces of [civil_from_days]: the year within the 400-year era
    of a day of the era, the first day of such a year, the month counted
    from March of a day of the year, and the first day of such a month. *)
Definition year_of_era (doe : Z) : Z :=
  (doe - doe / 1460 + doe / 36524 - doe / 146096) / 365.

Definition first_day_of_year (yoe : Z) : Z := 365 * yoe + yoe / 4 - yoe / 100.

Definition month_from_March (doy : Z) : Z := (5 * doy + 2) / 153.

Definition first_day_of_month (mp : Z) : Z := (153 * mp + 2) / 5.

(** The month and the day of a day of the year as one number, [MMDD],
    with 10000 added in January and February, which [civil_from_days]
    counts with the year before. *)
Definition month_day_code (doy : Z) : Z :=
  let mp := month_from_March doy in
  let m := if mp <? 10 then mp + 3 else mp - 9 in
  (if m <=? 2 then 1 else 0) * 10000 + m * 100
  + (doy - first_day_of_month mp + 1).

(** The calendar date of a day as one number, [YYYYMMDD]. *)
Definition date_number (days : Z) : Z :=
  let '(y, m, d) := civil_from_days days in y * 10000 + m * 100 + d.

(** The time values whose year is between 0000 and 9999, which
    [toISOString] writes with four digits. *)
Definition four_digit_year (t : Z) : Prop :=
  -62167219200000 <= t <= 253402300799999.

(** *** Plain objects used as counters

    [const d: Record<string, number> = {}] is an ordinary object: it lists
    its own properties in creation order, and a property it does not own is
    looked up in [Object.prototype]. *)

(** The values the counting loops can store in a property. *)
Inductive jsval : Type :=
| VNum (n : Z)
| VStr (s : string)
| VNaN.

(** What reading [d[k]] yields: [undefined], an own value, or the member
    of [Object.prototype] named [k]. *)
Inductive ref : Type :=
| Undefined
| Val (v : jsval)
| Builtin (name : string).

Definition JsObject : Type := list (string * jsval).

Definition Object_prototype_names : list string :=
  [ "constructor"; "__defineGetter__"; "__defineSetter__"; "hasOwnProperty";
    "__lookupGetter__"; "__lookupSetter__"; "isPrototypeOf";
    "propertyIsEnumerable"; "toString"; "valueOf"; "__proto__";
    "toLocaleString" ].

Definition is_proto_name (k : string) : bool :=
  existsb (String.eqb k) Object_prototype_names.

(** [d[k]] *)
Definition prop_get (d : JsObject) (k : string) : ref :=
  match assoc k d with
  | Some v => Val v
  | None => if is_proto_name k then Builtin k else Undefined
  end.

Definition ref_truthy (r : ref) : bool :=
  match r with
  | Undefined => false
  | Val (VNum n) => negb (n =? 0)
  | Val (VStr s) => negb (s =? "")%string
  | Val VNaN => false
  | Builtin _ => true
  end.

(** [r || 0] *)
Definition or_zero (r : ref) : ref :=
  if ref_truthy r then r else Val (VNum 0).

Section Objects.
Context `{Host}.

(** [String(m)] for a member [m] of [Object.prototype]: the accessor
    [__proto__] reads as [Object.prototype] itself, [constructor] is the
    function [Object], the others are functions of their own name. *)
Definition builtin_toString (name : string) : string :=
  if (name =? "__proto__")%string then "[object Object]"
  else if (name =? "constructor")%string then native_source "Object"
  else native_source name.

(** [r + 1] *)
Definition plus_one (r : ref) : jsval :=
  match r with
  | Undefined => VNaN
  | Val (VNum n) => VNum (n + 1)
  | Val (VStr s) => VStr (s ++ "1")%string
  | Val VNaN => VNaN
  | Builtin name => VStr (builtin_toString name ++ "1")%string
  end.

Fixpoint own_set (d : JsObject) (k : string) (v : jsval) : JsObject :=
  match d with
  | [] => [(k, v)]
  | (k', v') :: d' =>
      if (k' =? k)%string then (k', v) :: d' else (k', v') :: own_set d' k v
  end.

(** [d[k] = v]: an own property is written or created, except that
    [__proto__], when not an own property, is the setter inherited from
    [Object.prototype], which ignores a value that is not an object. *)
Definition prop_set (d : JsObject) (k : string) (v : jsval) : JsObject :=
  match assoc k d with
  | None => if (k =? "__proto__")%string then d else own_set d k v
  | Some _ => own_set d k v
  end.

(** [d[k] = (d[k] || 0) + 1] *)
Definition increment (d : JsObject) (k : string) : JsObject :=
  prop_set d k (plus_one (or_zero (prop_get d k))).

End Objects.

(** An array index is the canonical decimal form of an integer below
    2^32 - 1. *)
Definition is_digit (c : ascii) : bool :=
  ((48 <=? N_of_ascii c) && (N_of_ascii c <=? 57))%N.

Fixpoint digits_value (s : string) (acc : N) : option N :=
  match s with
  | EmptyString => Some acc
  | String c r =>
      if is_digit c then digits_value r (acc * 10 + (N_of_ascii c - 48))%N
      else None
  end.

Definition array_index (k : string) : option N :=
  match k with
  | EmptyString => None
  | String c r =>
      if (Ascii.eqb c "0" && negb (r =? "")%string)%bool then None
      else
        match digits_value k 0 with
        | Some n => if (n <=? 4294967294)%N then Some n else None
        | None => None
        end
  end.

Definition is_index (k : string) : bool :=
  match array_index k with
  | Some _ => true
  | None => false
  end.

(** [xs.sort(comparefn)], a stable sort: [comparefn a b = Gt] stands for a
    positive result, [Lt] for a negative one, [Eq] for zero or NaN. *)
Fixpoint insert_by {A : Type} (comparefn : A -> A -> comparison) (x : A)
  (l : list A) : list A :=
  match l with
  | [] => [x]
  | y :: l' =>
      match comparefn x y with
      | Gt => y :: insert_by comparefn x l'
      | _ => x :: l
      end
  end.

Definition sort_by {A : Type} (comparefn : A -> A -> comparison) (l : list A)
  : list A :=
  fold_right (insert_by comparefn) [] l.

(** What a sorted array guarantees of two neighbours: the comparison
    function does not put the first after the second. *)
Definition not_after {A : Type} (comparefn : A -> A -> comparison) (a b : A)
  : Prop :=
  comparefn a b <> Gt.

Definition index_compare (a b : string) : comparison :=
  match array_index a, array_index b with
  | Some m, Some n => (m ?= n)%N
  | _, _ => Eq
  end.

(** [Object.keys(d)]: the array indices in ascending numeric order, then
    the other keys in creation order. *)
Definition Object_keys (d : JsObject) : list string :=
  let ks := map fst d in
  sort_by index_compare (filter is_index ks)
    ++ filter (fun k => negb (is_index k)) ks.

(** [x - y], [None] for NaN. The strings the loops store are the text of
    a native function or of [Object.prototype] followed by 1s, which
    [ToNumber] maps to NaN. *)
Definition minus (x y : ref) : option Z :=
  match x, y with
  | Val (VNum a), Val (VNum b) => Some (a - b)
  | _, _ => None
  end.

(** The sign [sort] reads off the result of a comparison function. *)
Definition sign (r : option Z) : comparison :=
  match r with
  | Some z => z ?= 0
  | None => Eq
  end.

End JS.

(** ** The webhook route: [getClient], [POST], [GET] *)

Module Webhook.
Import JS.

(** A [MongoClient] object is known by its identity: the number of clients
    constructed before it. An [ObjectId] is the number of the operation that
    inserted the document. *)
Definition MongoClient : Type := nat.
Definition ObjectId : Type := nat.

(** What the outside world answers during a run: the readings of the
    server clock, whether [MONGODB_URI] is a well-formed connection string,
    whether the n-th call of [connect()] resolves, and whether the n-th
    operation sent to the collection resolves. *)
Record Env : Type := {
  clock : nat -> Z;
  uri_ok : bool;
  connect_ok : nat -> bool;
  store_ok : nat -> bool
}.

Section Route.
Context `{Host}.
Variable env : Env.

(** [eventToInsert]: the fields are the values taken from the payload
    ([None] is an absent property); [receivedAt] is the time value of
    [new Date()], which is never an invalid date. *)
Record EventDoc : Type := {
  titre : value;
  date : Date;
  receivedAt : Z;
  recommendation : value;
  ip_source : value
}.

Definition StoredDoc : Type := ObjectId * EventDoc.

(** The module-level variable [cachedClient], the clients and connections
    made so far, the collection [events] in insertion order, and what was
    written with [console.error]. *)
Record World : Type := {
  cachedClient : option MongoClient;
  clients : nat;
  connects : nat;
  connected : list MongoClient;
  collection : list StoredDoc;
  operations : nat;
  clock_reads : nat;
  console : list JsError
}.

Definition set_cachedClient (c : option MongoClient) (w : World) : World :=
  {| cachedClient := c; clients := clients w; connects := connects w;
     connected := connected w; collection := collection w;
     operations := operations w; clock_reads := clock_reads w;
     console := console w |}.

Definition set_clients (n : nat) (w : World) : World :=
  {| cachedClient := cachedClient w; clients := n; connects := connects w;
     connected := connected w; collection := collection w;
     operations := operations w; clock_reads := clock_reads w;
     console := console w |}.

Definition set_connects (n : nat) (w : World) : World :=
  {| cachedClient := cachedClient w; clients := clients w; connects := n;
     connected := connected w; collection := collection w;
     operations := operations w; clock_reads := clock_reads w;
     console := console w |}.

Definition set_connected (l : list MongoClient) (w : World) : World :=
  {| cachedClient := cachedClient w; clients := clients w;
     connects := connects w; connected := l; collection := collection w;
     operations := operations w; clock_reads := clock_reads w;
     console := console w |}.

Definition set_collection (l : list StoredDoc) (w : World) : World :=
  {| cachedClient := cachedClient w; clients := clients w;
     connects := connects w; connected := connected w; collection := l;
     operations := operations w; clock_reads := clock_reads w;
     console := console w |}.

Definition set_operations (n : nat) (w : World) : World :=
  {| cachedClient := cachedClient w; clients := clients w;
     connects := connects w; connected := connected w;
     collection := collection w; operations := n;
     clock_reads := clock_reads w; console := console w |}.

Definition set_clock_reads (n : nat) (w : World) : World :=
  {| cachedClient := cachedClient w; clients := clients w;
     connects := connects w; connected := connected w;
     collection := collection w; operations := operations w;
     clock_reads := n; console := console w |}.

Definition set_console (l : list JsError) (w : World) : World :=
  {| cachedClient := cachedClient w; clients := clients w;
     connects := connects w; connected := connected w;
     collection := collection w; operations := operations w;
     clock_reads := clock_reads w; console := l |}.

Notation "x <- m ;; k" := (bind m (fun x => k))
  (at level 61, m at next level, right associativity).
Notation "m ;;; k" := (bind m (fun _ => k))
  (at level 61, right associativity).

(** [new Date()]: one reading of the server clock. *)
Definition new_Date : M World Z :=
  fun w => (Ok (clock env (clock_reads w)), set_clock_reads (S (clock_reads w)) w).

(** [new MongoClient(uri)] *)
Definition new_MongoClient : M World MongoClient :=
  fun w =>
    if uri_ok env then (Ok (clients w), set_clients (S (clients w)) w)
    else (Throw MongoParseError, w).

(** [await client.connect()] *)
Definition connect (client : MongoClient) : M World unit :=
  fun w =>
    let w' := set_connects (S (connects w)) w in
    if connect_ok env (connects w)
    then (Ok tt, set_connected (client :: connected w) w')
    else (Throw MongoNetworkError, w').

Definition getClient : M World MongoClient :=
  w <- get ;;
  match cachedClient w with
  | Some client => ret client
  | None =>
      client <- new_MongoClient ;;
      (fun w => (Ok tt, set_cachedClient (Some client) w)) ;;;
      connect client ;;;
      ret client
  end.

(** [await db.collection('events').insertOne(doc)] *)
Definition insertOne (client : MongoClient) (doc : EventDoc) : M World ObjectId :=
  fun w =>
    let n := operations w in
    let w' := set_operations (S n) w in
    if store_ok env n
    then (Ok n, set_collection (collection w ++ [(n, doc)]) w')
    else (Throw MongoServerError, w').

(** [sort({ receivedAt: -1 })]: larger [receivedAt] first. *)
Fixpoint insert_desc (x : StoredDoc) (l : list StoredDoc) : list StoredDoc :=
  match l with
  | [] => [x]
  | y :: l' =>
      if receivedAt (snd y) <=? receivedAt (snd x) then x :: l
      else y :: insert_desc x l'
  end.

Definition sort_desc (l : list StoredDoc) : list StoredDoc :=
  fold_right insert_desc [] l.

(** [await db.collection('events').find({}).sort({ receivedAt: -1 })
    .limit(n).toArray()] *)
Definition find_sort_limit (client : MongoClient) (n : nat)
  : M World (list StoredDoc) :=
  fun w =>
    let w' := set_operations (S (operations w)) w in
    if store_ok env (operations w)
    then (Ok (firstn n (sort_desc (collection w))), w')
    else (Throw MongoServerError, w').

(** The JSON bodies the route answers with: [{ ok: true, insertedId }],
    [{ ok: true, events }], the body of the answer 400, whose [error] says
    that the field [titre] is required and must be a string, and
    [{ ok: false, error }] with the message of the exception caught. *)
Inductive Body : Type :=
| Inserted (insertedId : ObjectId)
| Events (events : list StoredDoc)
| TitreRequired
| Failed (error : JsError).

Record Response : Type := { status : Z; body : Body }.

(** [await request.json()]; [None] is a body that is not JSON. *)
Definition request_json (request : option (json number)) : M World (json number) :=
  match request with
  | Some data => ret data
  | None => throw SyntaxError
  end.

(** [const { titre, date, recommendation, ip_source } = data] *)
Definition destructure (data : json number) : M World (value * value * value * value) :=
  match data with
  | JNull => throw TypeError
  | _ => ret (get_prop data "titre", get_prop data "date",
              get_prop data "recommendation", get_prop data "ip_source")
  end.

Definition console_error (e : JsError) (w : World) : World :=
  set_console (console w ++ [e]) w.

Definition POST (request : option (json number)) : World -> Response * World :=
  try_catch
    (data <- request_json request ;;
     fields <- destructure data ;;
     let '(titre, date, recommendation, ip_source) := fields in
     if negb (truthy titre) || negb (typeof titre =? "string")%string then
       ret {| status := 400; body := TitreRequired |}
     else
       d <- (if truthy date then ret (new_Date_of date)
             else now <- new_Date ;; ret (DateAt now)) ;;
       r <- new_Date ;;
       let eventToInsert :=
         {| titre := titre; date := d; receivedAt := r;
            recommendation := if truthy recommendation then recommendation else None;
            ip_source := if truthy ip_source then ip_source else None |} in
       client <- getClient ;;
       insertedId <- insertOne client eventToInsert ;;
       ret {| status := 200; body := Inserted insertedId |})
    (fun error w =>
       ({| status := 500; body := Failed error |}, console_error error w)).

Definition GET : World -> Response * World :=
  try_catch
    (client <- getClient ;;
     events <- find_sort_limit client 200 ;;
     ret {| status := 200; body := Events events |})
    (fun error w => ({| status := 500; body := Failed error |}, w)).

(** The statements of [POST] that follow the construction of
    [eventToInsert], and its [catch] block. *)
Definition insert_event (eventToInsert : EventDoc) : M World Response :=
  client <- getClient ;;
  insertedId <- insertOne client eventToInsert ;;
  ret {| status := 200; body := Inserted insertedId |}.

Definition POST_catch (error : JsError) (w : World) : Response * World :=
  ({| status := 500; body := Failed error |}, console_error error w).

(** The connection can be had: the client is cached, or the connection
    string is well formed and the next [connect()] resolves. *)
Definition client_available (w : World) : Prop :=
  cachedClient w <> None
  \/ (uri_ok env = true /\ connect_ok env (connects w) = true).

(** The connection can be had and the next operation on the collection
    resolves. *)
Definition store_reachable (w : World) : Prop :=
  client_available w /\ store_ok env (operations w) = true.

(** The title of a payload is missing, not a string, or empty. *)
Definition invalid_titre (v : value) : Prop :=
  v = None \/ (forall s, v <> Some (JString s)) \/ v = Some (JString "").


(** A request to the route, and the world after a sequence of requests
    that do not overlap: each is answered before the next is received.
    The handlers are [async]; what requests that overlap can do is
    described by [POST_begin] and [POST_resume] below. *)
Inductive Request : Type :=
| ReqPOST (request : option (json number))
| ReqGET.

Definition handle (r : Request) (w : World) : Response * World :=
  match r with
  | ReqPOST request => POST request w
  | ReqGET => GET w
  end.

Definition serve (rs : list Request) (w : World) : World :=
  fold_left (fun w r => snd (handle r w)) rs w.

(** A record as [POST] builds them: the title is a non-empty string and
    an optional field is absent or truthy. *)
Definition valid_record (doc : EventDoc) : Prop :=
  (exists s, titre doc = Some (JString s) /\ s <> "")
  /\ (recommendation doc = None \/ truthy (recommendation doc) = true)
  /\ (ip_source doc = None \/ truthy (ip_source doc) = true).






(** *** The handler of [POST] between its awaits

    [POST] is an [async] function: between two of its [await]s the server
    can run other handlers. After the body is read, the handler runs
    without interruption through the validation, the two [new Date()]
    and the synchronous part of [getClient], up to [await
    cachedClient.connect()] or, with a cached client, up to the return
    of [getClient]; it is resumed when the connection settles, and again
    when [insertOne] settles. *)
Inductive Suspended : Type :=
| AwaitConnect (client : MongoClient) (eventToInsert : EventDoc)
| AwaitInsertOne (client : MongoClient) (eventToInsert : EventDoc).

Definition POST_begin (request : option (json number))
  : World -> (Response + Suspended) * World :=
  try_catch
    (data <- request_json request ;;
     fields <- destructure data ;;
     let '(titre, date, recommendation, ip_source) := fields in
     if negb (truthy titre) || negb (typeof titre =? "string")%string then
       ret (inl {| status := 400; body := TitreRequired |})
     else
       d <- (if truthy date then ret (new_Date_of date)
             else now <- new_Date ;; ret (DateAt now)) ;;
       r <- new_Date ;;
       let eventToInsert :=
         {| titre := titre; date := d; receivedAt := r;
            recommendation := if truthy recommendation then recommendation else None;
            ip_source := if truthy ip_source then ip_source else None |} in
       w <- get ;;
       match cachedClient w with
       | Some client => ret (inr (AwaitInsertOne client eventToInsert))
       | None =>
           client <- new_MongoClient ;;
           (fun w => (Ok tt, set_cachedClient (Some client) w)) ;;;
           ret (inr (AwaitConnect client eventToInsert))
       end)
    (fun error w =>
       (inl {| status := 500; body := Failed error |}, console_error error w)).

Definition POST_resume (s : Suspended)
  : World -> (Response + Suspended) * World :=
  match s with
  | AwaitConnect client eventToInsert =>
      try_catch
        (connect client ;;;
         ret (inr (AwaitInsertOne client eventToInsert)))
        (fun error w =>
           (inl {| status := 500; body := Failed error |}, console_error error w))
  | AwaitInsertOne client eventToInsert =>
      try_catch
        (insertedId <- insertOne client eventToInsert ;;
         ret (inl {| status := 200; body := Inserted insertedId |}))
        (fun error w =>
           (inl {| status := 500; body := Failed error |}, console_error error w))
  end.

(** A handler resumed [n] times with nothing else in between. *)
Fixpoint resumed (n : nat) (r : (Response + Suspended) * World)
  : (Response + Suspended) * World :=
  match n with
  | O => r
  | S n' =>
      match r with
      | (inl _, _) => r
      | (inr s, w) => resumed n' (POST_resume s w)
      end
  end.

End Route.

End Webhook.

(** ** The dashboard page: [computeTimeSeries], [computeTitleBars], [Home] *)

Module Dashboard.
Import JS.

Record EventData : Type := {
  _id : option string;
  titre : string;
  date : string;
  recommendation : option string;
  ip_source : option string;
  receivedAt : option string
}.

Inductive TimeGrouping : Type := jour | heure.

(** [ToBoolean] of a property of type [string | undefined]. *)
Definition str_truthy (s : option string) : bool :=
  match s with
  | Some s => negb (s =? "")%string
  | None => false
  end.

(** The value of [ev.date || ev.receivedAt || Date.now()]. *)
Inductive raw_time : Type :=
| RawString (s : string)
| RawNumber (t : Z).

Section Page.
Context `{Host}.

(** The readings of [Date.now()] in the browser; the state of the
    aggregation code is the number of readings made. *)
Variable clock : nat -> Z.

Notation "x <- m ;; k" := (bind m (fun x => k))
  (at level 61, m at next level, right associativity).

Definition Date_now : M nat Z := fun n => (Ok (clock n), S n).

(** [new Date(raw)]; a reading of [Date.now()] is a time value in range. *)
Definition new_Date (raw : raw_time) : Date :=
  match raw with
  | RawString s => of_time (Date_parse s)
  | RawNumber t => DateAt t
  end.

Definition raw_of (ev : EventData) : M nat raw_time :=
  if str_truthy (Some (date ev)) then ret (RawString (date ev))
  else
    match receivedAt ev with
    | Some s =>
        if str_truthy (Some s) then ret (RawString s)
        else t <- Date_now ;; ret (RawNumber t)
    | None => t <- Date_now ;; ret (RawNumber t)
    end.

(** The bucket key of one event. *)
Definition bucket_key (group : TimeGrouping) (ev : EventData) : M nat string :=
  raw <- raw_of ev ;;
  let d := new_Date raw in
  iso <- toISOString d ;;
  match group with
  | jour => ret (slice0 10 iso)
  | heure => ret (slice0 13 iso)
  end.

Definition computeTimeSeries (events : list EventData) (group : TimeGrouping)
  : M nat (list string * list ref) :=
  counts <- forEach events
              (fun counts ev =>
                 key <- bucket_key group ev ;;
                 ret (increment counts key))
              [] ;;
  let labels := sort_by String.compare (Object_keys counts) in
  ret (labels, map (fun l => prop_get counts l) labels).

Definition computeTitleBars (events : list EventData) : list string * list ref :=
  let d := fold_left (fun d ev => increment d (titre ev)) events [] in
  let labels :=
    sort_by (fun a b => sign (minus (prop_get d b) (prop_get d a)))
      (Object_keys d) in
  (labels, map (fun l => prop_get d l) labels).

(** The bucket keys of a window, in the order of its events. *)
Fixpoint bucket_keys (group : TimeGrouping) (events : list EventData)
  : M nat (list string) :=
  match events with
  | [] => ret []
  | ev :: events' =>
      key <- bucket_key group ev ;;
      keys <- bucket_keys group events' ;;
      ret (key :: keys)
  end.

(** The string that [ev.date || ev.receivedAt] selects, if any. *)
Definition time_string (ev : EventData) : option string :=
  if str_truthy (Some (date ev)) then Some (date ev)
  else if str_truthy (receivedAt ev) then receivedAt ev
  else None.

(** A window is well formed when the time strings of its events parse. *)
Definition well_formed (events : list EventData) : Prop :=
  Forall (fun ev => forall s, time_string ev = Some s -> Date_parse s <> None)
    events.

(** The bucket key of an event that carries a time string, [None] when
    the string does not parse. *)
Definition timed_key (group : TimeGrouping) (ev : EventData) : option string :=
  match time_string ev with
  | Some s =>
      match Date_parse s with
      | Some t =>
          Some (match group with
                | jour => slice0 10 (iso_of_time t)
                | heure => slice0 13 (iso_of_time t)
                end)
      | None => None
      end
  | None => None
  end.

Fixpoint timed_keys (group : TimeGrouping) (events : list EventData)
  : option (list string) :=
  match events with
  | [] => Some []
  | ev :: events' =>
      match timed_key group ev, timed_keys group events' with
      | Some k, Some ks => Some (k :: ks)
      | _, _ => None
      end
  end.

(** The event carries a time string, so [Date.now()] is not called. *)
Definition has_time (ev : EventData) : bool :=
  match time_string ev with
  | Some _ => true
  | None => false
  end.

End Page.

(** [a] occurs in [l] at a place before an occurrence of [b]. *)
Inductive before {A : Type} (a b : A) : list A -> Prop :=
| before_here (l : list A) : In b l -> before a b (a :: l)
| before_later (x : A) (l : list A) : before a b l -> before a b (x :: l).

(** How often a key occurs among the keys of a window. *)
Definition occurrences (k : string) (keys : list string) : Z :=
  Z.of_nat (count_occ string_dec keys k).

(** The object [d] holds the tally of [keys]: its own properties are
    the distinct keys, each with the number of its occurrences. *)
Definition tallies (d : JsObject) (keys : list string) : Prop :=
  NoDup (map fst d)
  /\ (forall k, In k (map fst d) <-> In k keys)
  /\ (forall k, In k keys -> assoc k d = Some (VNum (occurrences k keys))).

(** The sum of a list of counts. *)
Definition total (counts : list Z) : Z := fold_right Z.add 0 counts.

(** A value of [data] that is the number [n]. *)
Definition count (n : Z) : ref := Val (VNum n).

(** Strictly ascending order of strings, as [sort()] without a
    comparison function orders them. *)
Definition string_lt (a b : string) : Prop := String.compare a b = Lt.

Definition option_string_dec (a b : option string) : {a = b} + {a <> b}.
Proof. decide equality. apply string_dec. Defined.

(** [new Set(events.filter(e => e.ip_source).map(e => e.ip_source)).size] *)
Definition uniqueIPs (events : list EventData) : nat :=
  List.length (nodup option_string_dec
            (map ip_source (filter (fun e => str_truthy (ip_source e)) events))).

(** [events.filter(e => e.recommendation).length] *)
Definition eventsWithRecommendation (events : list EventData) : nat :=
  List.length (filter (fun e => str_truthy (recommendation e)) events).

(** [events.length > 0 ? events[0] : null] *)
Definition lastEvent (events : list EventData) : option EventData :=
  if (0 <? List.length events)%nat then nth_error events 0 else None.

(** The four statistics shown by the page. *)
Record Stats : Type := {
  totalCount : nat;
  uniqueSourceCount : nat;
  recommendationCount : nat;
  mostRecent : option EventData
}.

Definition summaryStats (events : list EventData) : Stats :=
  {| totalCount := List.length events;
     uniqueSourceCount := uniqueIPs events;
     recommendationCount := eventsWithRecommendation events;
     mostRecent := lastEvent events |}.

(** The day, or the hour, of a time value, counted from the epoch: the
    bucket of the time series the value belongs to. *)
Definition bucket_number (group : TimeGrouping) (t : Z) : Z :=
  match group with
  | jour => t / msPerDay
  | heure => t / 3600000
  end.

End Dashboard.

(** ** A reference host

    Used to run the code on concrete inputs: numbers are the
    integer-valued ones, [Date.parse] reads the format that
    [toISOString] writes (the one every engine must read) and nothing
    else, native functions print as in V8. *)

Module Engine.
Import JS.

Definition digit_of (c : ascii) : option Z :=
  if is_digit c then Some (Z.of_N (N_of_ascii c) - 48) else None.

Fixpoint decimal (cs : list ascii) (acc : Z) : option Z :=
  match cs with
  | [] => Some acc
  | c :: cs' =>
      match digit_of c with
      | Some d => decimal cs' (acc * 10 + d)
      | None => None
      end
  end.

Definition is_leap (y : Z) : bool :=
  ((y mod 4 =? 0) && negb (y mod 100 =? 0)) || (y mod 400 =? 0).

Definition days_in_month (y m : Z) : Z :=
  if m =? 2 then (if is_leap y then 29 else 28)
  else if (m =? 4) || (m =? 6) || (m =? 9) || (m =? 11) then 30
  else 31.

Definition make_time (y m d hh mm ss ms : Z) : option Z :=
  if (1 <=? m) && (m <=? 12) && (1 <=? d) && (d <=? days_in_month y m)
     && (hh <=? 23) && (mm <=? 59) && (ss <=? 59)
  then Some (days_from_civil y m d * msPerDay
             + hh * 3600000 + mm * 60000 + ss * 1000 + ms)
  else None.

(** [Date.parse] on [YYYY-MM-DDTHH:mm:ss.sssZ]. *)
Definition iso_parse (s : string) : option Z :=
  match list_ascii_of_string s with
  | [y1; y2; y3; y4; c1; m1; m2; c2; d1; d2; c3; h1; h2; c4; n1; n2; c5;
     s1; s2; c6; f1; f2; f3; c7] =>
      if (string_of_list_ascii [c1; c2; c3; c4; c5; c6; c7] =? "--T::.Z")%string
      then
        match decimal [y1; y2; y3; y4] 0, decimal [m1; m2] 0,
              decimal [d1; d2] 0, decimal [h1; h2] 0, decimal [n1; n2] 0,
              decimal [s1; s2] 0, decimal [f1; f2; f3] 0 with
        | Some y, Some m, Some d, Some hh, Some mm, Some ss, Some ms =>
            make_time y m d hh mm ss ms
        | _, _, _, _, _, _, _ => None
        end
      else None
  | _ => None
  end.

(** The decimal form of an integer, for integers below 10^21. *)
Fixpoint decimal_digits (fuel : nat) (n : Z) (acc : string) : string :=
  match fuel with
  | O => acc
  | S fuel' =>
      let acc' := String (digit_char n) acc in
      if n <? 10 then acc' else decimal_digits fuel' (n / 10) acc'
  end.

Definition integer_toString (n : Z) : string :=
  if n <? 0 then String "-" (decimal_digits 21 (- n) "")
  else decimal_digits 21 n "".

(** [String(v)]; [Array.prototype.join] prints null as the empty string. *)
Fixpoint json_toString (v : json Z) : string :=
  match v with
  | JNull => "null"
  | JBool b => if b then "true" else "false"
  | JNumber n => integer_toString n
  | JString s => s
  | JArray items =>
      (fix join (l : list (json Z)) : string :=
         match l with
         | [] => ""
         | x :: l' =>
             let e := match x with JNull => "" | _ => json_toString x end in
             match l' with
             | [] => e
             | _ :: _ => (e ++ "," ++ join l')%string
             end
         end) items
  | JObject _ => "[object Object]"
  end.

#[local] Instance host : Host := {|
  number := Z;
  number_truthy := fun n => negb (n =? 0);
  number_time := fun n => if Z.abs n <=? 8640000000000000 then Some n else None;
  Date_parse := iso_parse;
  object_toString := json_toString;
  native_source := fun f => ("function " ++ f ++ "() { [native code] }")%string
|}.

(** An event without optional fields, as the query returns it. *)
Definition event (title time : string) : Dashboard.EventData :=
  {| Dashboard._id := None;
     Dashboard.titre := title;
     Dashboard.date := time;
     Dashboard.recommendation := None;
     Dashboard.ip_source := None;
     Dashboard.receivedAt := None |}.

(** A server whose connection string is well formed, whose database
    answers every call, and whose clock starts on 2024-01-01T10:00Z; the
    same server with a database that refuses connections; a process that
    has served nothing yet. *)
Definition env_up : Webhook.Env :=
  {| Webhook.clock := fun n => 1704103200000 + Z.of_nat n;
     Webhook.uri_ok := true;
     Webhook.connect_ok := fun _ => true;
     Webhook.store_ok := fun _ => true |}.

Definition env_down : Webhook.Env :=
  {| Webhook.clock := fun n => 1704103200000 + Z.of_nat n;
     Webhook.uri_ok := true;
     Webhook.connect_ok := fun _ => false;
     Webhook.store_ok := fun _ => true |}.

(** A server whose [MONGODB_URI] is not a connection string. *)
Definition env_no_uri : Webhook.Env :=
  {| Webhook.clock := fun n => 1704103200000 + Z.of_nat n;
     Webhook.uri_ok := false;
     Webhook.connect_ok := fun _ => true;
     Webhook.store_ok := fun _ => true |}.

Definition fresh_world : Webhook.World :=
  {| Webhook.cachedClient := None;
     Webhook.clients := 0;
     Webhook.connects := 0;
     Webhook.connected := [];
     Webhook.collection := [];
     Webhook.operations := 0;
     Webhook.clock_reads := 0;
     Webhook.console := [] |}.

End Engine.

(** ** The model page: [prepareHistogramData] and the statistics of
    [ModeleIAPage]

    The page computes over the module constant [histogramData]; the
    functions below take that array as an argument. Its values are
    integers, for which the arithmetic of numbers is exact up to
    2^53 - 1. *)

Module ModeleIA.
Import JS.

Definition histogramData : list Z :=
  [0; 0; 0; 0; 0; 0; 0;
   20; 21; 22; 23; 24;
   28; 28; 28; 28; 28; 28; 28; 28; 28; 28; 28;
   30; 31; 32;
   35; 38;
   40; 41; 42; 42;
   45; 47; 48].

(** An integer that a number holds exactly. *)
Definition safe_integer (v : Z) : Prop := Z.abs v <= 9007199254740991.

(** [String(v)] and [v.toString()] for an integer value, which is also
    the property key that [bins[v]] uses. *)
Definition Number_toString (v : Z) : string := Engine.integer_toString v.

(** [Math.min(...values)] and [Math.max(...values)]; [None] is the
    infinity they return for no argument. *)
Definition Math_min (values : list Z) : option Z :=
  match values with
  | [] => None
  | v :: values' => Some (fold_left Z.min values' v)
  end.

Definition Math_max (values : list Z) : option Z :=
  match values with
  | [] => None
  | v :: values' => Some (fold_left Z.max values' v)
  end.

(** The values that [i] takes in
    [for (let i = minVal; i <= maxVal; i++)]. *)
Definition loop_indices (minVal maxVal : option Z) : list Z :=
  match minVal, maxVal with
  | Some lo, Some hi =>
      map (fun k => lo + Z.of_nat k) (seq 0 (Z.to_nat (hi - lo + 1)))
  | _, _ => []
  end.

Section Page.
Context `{Host}.

Definition prepareHistogramData (values : list Z) : list string * list ref :=
  let bins :=
    fold_left (fun bins value => increment bins (Number_toString value))
      values [] in
  let minVal := Math_min values in
  let maxVal := Math_max values in
  let allLabels := loop_indices minVal maxVal in
  let allData :=
    map (fun i => or_zero (prop_get bins (Number_toString i))) allLabels in
  (map (fun k => Number_toString k) allLabels, allData).

End Page.

(** [[...values].sort((a, b) => a - b)] *)
Definition sorted (values : list Z) : list Z :=
  sort_by (fun a b => sign (Some (a - b))) values.

(** [sorted[Math.floor(sorted.length / 2)]]; [None] is [undefined]. *)
Definition median (values : list Z) : option Z :=
  nth_error (sorted values) (List.length (sorted values) / 2).

(** How many of the values satisfy a test. *)
Definition how_many (test : Z -> bool) (values : list Z) : nat :=
  List.length (filter test values).

End ModeleIA.

(** ** Properties of the webhook route *)

Module WebhookFacts.
Import JS Webhook.

Section Route.
Context `{Host}.
Variable env : Env.

Lemma invalid_titre_guard (v : value) :
  invalid_titre v ->
  negb (truthy v) || negb (typeof v =? "string")%string = true.
Proof.
  intros [-> | [Hns | ->]]; try reflexivity.
  destruct v as [[| b | n | s | items | ms] |]; simpl;
    try (rewrite orb_true_r; reflexivity); try reflexivity.
  exfalso. apply (Hns s). reflexivity.
Qed.

Lemma valid_titre_guard (s : string) :
  s <> "" ->
  negb (truthy (Some (JString s))) || negb (typeof (Some (JString s)) =? "string")%string
  = false.
Proof.
  intros Hs. simpl. destruct (String.eqb_spec s ""); [contradiction | reflexivity].
Qed.

(** [getClient] when the client is cached. *)
Lemma getClient_cached (w : World) (c : MongoClient) :
  cachedClient w = Some c -> getClient env w = (Ok c, w).
Proof.
  intros Hc. unfold getClient, bind, get. rewrite Hc. reflexivity.
Qed.

(** [getClient] on an empty cache, by the answers of the world. *)
Lemma getClient_fresh (w : World) :
  cachedClient w = None ->
  getClient env w =
    if uri_ok env then
      let w1 := set_cachedClient (Some (clients w)) (set_clients (S (clients w)) w) in
      let w2 := set_connects (S (connects w)) w1 in
      if connect_ok env (connects w)
      then (Ok (clients w), set_connected (clients w :: connected w) w2)
      else (Throw MongoNetworkError, w2)
    else (Throw MongoParseError, w).
Proof.
  intros Hc. unfold getClient, bind, get. rewrite Hc.
  unfold new_MongoClient. destruct (uri_ok env); [| reflexivity].
  unfold connect. simpl. destruct (connect_ok env (connects w)); reflexivity.
Qed.

(** What [getClient] leaves alone. *)
Lemma getClient_frame (w : World) :
  let w' := snd (getClient env w) in
  collection w' = collection w /\ operations w' = operations w
  /\ clock_reads w' = clock_reads w /\ console w' = console w.
Proof.
  destruct (cachedClient w) as [c |] eqn:Hc.
  - rewrite (getClient_cached w c Hc). simpl. auto.
  - rewrite (getClient_fresh w Hc).
    destruct (uri_ok env); [destruct (connect_ok env (connects w)) |];
      simpl; auto.
Qed.

Lemma getClient_reachable (w : World) :
  client_available env w ->
  exists c, fst (getClient env w) = Ok c.
Proof.
  intros Hr. destruct (cachedClient w) as [c |] eqn:Hc.
  - exists c. rewrite (getClient_cached w c Hc). reflexivity.
  - destruct Hr as [Hr | [Hu Hk]]; [congruence |].
    exists (clients w). rewrite (getClient_fresh w Hc), Hu, Hk. reflexivity.
Qed.

(** [POST] on a payload with a valid title: the clock is read once or
    twice, the record is built, and the rest is [insert_event]. *)
Lemma POST_valid (members : list (string * json number)) (w : World) (s : string) :
  assoc "titre" members = Some (JString s) ->
  s <> "" ->
  let dv := assoc "date" members in
  let rv := assoc "recommendation" members in
  let iv := assoc "ip_source" members in
  let w1 := if truthy dv then w else set_clock_reads (S (clock_reads w)) w in
  let doc :=
    {| titre := Some (JString s);
       date := if truthy dv then new_Date_of dv
               else DateAt (clock env (clock_reads w));
       receivedAt := clock env (clock_reads w1);
       recommendation := if truthy rv then rv else None;
       ip_source := if truthy iv then iv else None |} in
  POST env (Some (JObject members)) w =
    try_catch (insert_event env doc) POST_catch
      (set_clock_reads (S (clock_reads w1)) w1).
Proof.
  intros Ht Hs dv rv iv w1 doc.
  unfold POST, try_catch, bind, request_json, destructure, ret. simpl.
  rewrite Ht. rewrite (valid_titre_guard s Hs).
  subst w1 doc. fold dv rv iv.
  destruct (truthy dv); reflexivity.
Qed.

(** The two outcomes of storing a record: it is appended and the answer
    is 200, or nothing is appended and the answer is 500. *)
Lemma insert_event_outcome (doc : EventDoc) (w : World) :
  let r := try_catch (insert_event env doc) POST_catch w in
  (store_reachable env w
   /\ fst r = {| status := 200; body := Inserted (operations w) |}
   /\ collection (snd r) = collection w ++ [(operations w, doc)])
  \/ (~ store_reachable env w
      /\ (exists e, fst r = {| status := 500; body := Failed e |})
      /\ collection (snd r) = collection w).
Proof.
  unfold store_reachable, client_available, try_catch, insert_event, bind.
  destruct (cachedClient w) as [c |] eqn:Hc.
  - rewrite (getClient_cached w c Hc). unfold insertOne.
    destruct (store_ok env (operations w)) eqn:Hs; simpl.
    + left. repeat split; auto. left. discriminate.
    + right. repeat split; eauto. intros [_ Hf]. discriminate.
  - rewrite (getClient_fresh w Hc).
    destruct (uri_ok env) eqn:Hu.
    + destruct (connect_ok env (connects w)) eqn:Hk; simpl.
      * unfold insertOne. simpl.
        destruct (store_ok env (operations w)) eqn:Hs; simpl.
        -- left. repeat split; auto.
        -- right. repeat split; eauto. intros [_ Hf]. discriminate.
      * right. repeat split; eauto.
        intros [[Hf | [_ Hf]] _]; [congruence | discriminate].
    + simpl. right. repeat split; eauto.
      intros [[Hf | [Hf _]] _]; [congruence | discriminate].
Qed.


Lemma insert_event_clock (doc : EventDoc) (w : World) :
  clock_reads (snd (try_catch (insert_event env doc) POST_catch w)) = clock_reads w.
Proof.
  unfold try_catch, insert_event, bind.
  pose proof (getClient_frame w) as (_ & _ & Hk & _).
  destruct (getClient env w) as [[c | e] w1]; simpl in *; [| assumption].
  unfold insertOne. destruct (store_ok env (operations w1)); simpl; assumption.
Qed.

Lemma app_one_neq {A : Type} (l : list A) (x : A) : l ++ [x] <> l.
Proof.
  intros Heq. apply (f_equal (@List.length A)) in Heq.
  rewrite length_app in Heq. simpl in Heq. lia.
Qed.

(** Every run of [POST]: it answers without touching the world, or it
    goes through its [catch] block at once, or it builds a record after
    some readings of the clock and tries to store it. *)
Lemma POST_shape (request : option (json number)) (w : World) :
  (exists resp, POST env request w = (resp, w))
  \/ (exists e, POST env request w = POST_catch e w)
  \/ (exists doc n,
        POST env request w
        = try_catch (insert_event env doc) POST_catch (set_clock_reads n w)).
Proof.
  destruct request as [data |]; [| right; left; exists SyntaxError; reflexivity].
  destruct data as [| b | n | s | items | members];
    try (left; eexists; reflexivity);
    try (right; left; exists TypeError; reflexivity).
  unfold POST, try_catch, bind, request_json, destructure, ret. simpl.
  destruct (negb (truthy (assoc "titre" members))
            || negb (typeof (assoc "titre" members) =? "string")%string).
  - left. eexists. reflexivity.
  - right. right.
    destruct (truthy (assoc "date" members)); simpl;
      do 2 eexists; unfold try_catch, insert_event, bind, ret; simpl; reflexivity.
Qed.

(** Bodies that are not objects: [null] cannot be destructured and a
    body that is not JSON cannot be parsed, both end in the [catch]
    block; any other value has no property [titre]. *)
Lemma POST_null_body (w : World) :
  POST env (Some JNull) w = POST_catch TypeError w.
Proof. reflexivity. Qed.

Lemma POST_unparsable_body (w : World) :
  POST env None w = POST_catch SyntaxError w.
Proof. reflexivity. Qed.

Lemma POST_not_an_object (data : json number) (w : World) :
  data <> JNull ->
  (forall members, data <> JObject members) ->
  POST env (Some data) w = ({| status := 400; body := TitreRequired |}, w).
Proof.
  intros Hn Ho.
  destruct data as [| b | n | s | items | members]; try reflexivity.
  - contradiction.
  - exfalso. apply (Ho members). reflexivity.
Qed.

(** Once a client is cached, no request constructs or connects one. *)
Lemma insert_event_keeps_client (doc : EventDoc) (w : World) (c : MongoClient) :
  cachedClient w = Some c ->
  let w' := snd (try_catch (insert_event env doc) POST_catch w) in
  cachedClient w' = Some c /\ clients w' = clients w
  /\ connects w' = connects w /\ connected w' = connected w.
Proof.
  intros Hc. unfold try_catch, insert_event, bind.
  rewrite (getClient_cached w c Hc). unfold insertOne.
  destruct (store_ok env (operations w)); simpl; auto.
Qed.

Lemma handle_keeps_client (r : Request) (w : World) (c : MongoClient) :
  cachedClient w = Some c ->
  let w' := snd (handle env r w) in
  cachedClient w' = Some c /\ clients w' = clients w
  /\ connects w' = connects w /\ connected w' = connected w.
Proof.
  intros Hc. destruct r as [request |]; simpl.
  - destruct (POST_shape request w) as [[resp Hp] | [[e Hp] | (doc & n & Hp)]];
      rewrite Hp; simpl; auto.
    apply (insert_event_keeps_client doc (set_clock_reads n w) c). exact Hc.
  - unfold GET, try_catch, bind. rewrite (getClient_cached w c Hc).
    unfold find_sort_limit. destruct (store_ok env (operations w)); simpl; auto.
Qed.

Lemma serve_keeps_client (rs : list Request) (w : World) (c : MongoClient) :
  cachedClient w = Some c ->
  let w' := serve env rs w in
  cachedClient w' = Some c /\ clients w' = clients w
  /\ connects w' = connects w /\ connected w' = connected w.
Proof.
  revert w. induction rs as [| r rs IH]; intros w Hc; simpl; [auto |].
  destruct (handle_keeps_client r w c Hc) as (H1 & H2 & H3 & H4).
  destruct (IH _ H1) as (I1 & I2 & I3 & I4).
  unfold serve in *. rewrite I2, I3, I4. auto.
Qed.

(** *** The query: sorting by [receivedAt], newest first *)










(** C1. A payload whose field [titre] is missing, is not a string or is
    the empty string is answered with status 400 and the message that
    the field is required; the route returns before it touches the
    connection or the collection, so the world, and with it the content
    of the store, is unchanged. *)
Theorem POST_rejects_invalid_titre (members : list (string * json number)) (w : World) :
  invalid_titre (assoc "titre" members) ->
  POST env (Some (JObject members)) w
  = ({| status := 400; body := TitreRequired |}, w)
  /\ collection (snd (POST env (Some (JObject members)) w)) = collection w.
Proof.
  intros Hi.
  assert (Hp : POST env (Some (JObject members)) w
               = ({| status := 400; body := TitreRequired |}, w)).
  { unfold POST, try_catch, bind, request_json, destructure, ret. simpl.
    rewrite (invalid_titre_guard _ Hi). reflexivity. }
  rewrite Hp. split; reflexivity.
Qed.


(** What a run of [POST] appends to the collection: nothing, or the one
    record it built, stamped with the latest reading of the clock and
    carrying the optional fields that are truthy in the payload. *)
Lemma POST_appends (members : list (string * json number)) (w : World)
  (id : ObjectId) (doc : EventDoc) :
  let r := POST env (Some (JObject members)) w in
  collection (snd r) = collection w ++ [(id, doc)] ->
  receivedAt doc = clock env (pred (clock_reads (snd r)))
  /\ recommendation doc
     = (if truthy (assoc "recommendation" members)
        then assoc "recommendation" members else None)
  /\ ip_source doc
     = (if truthy (assoc "ip_source" members)
        then assoc "ip_source" members else None).
Proof.
  intros r Hcol. subst r.
  destruct (negb (truthy (assoc "titre" members))
            || negb (typeof (assoc "titre" members) =? "string")%string) eqn:Hg.
  - exfalso. revert Hcol.
    unfold POST, try_catch, bind, request_json, destructure, ret. simpl.
    rewrite Hg. simpl. intros Heq. symmetry in Heq.
    apply app_one_neq in Heq. exact Heq.
  - destruct (assoc "titre" members) as [[| b | n | s | items | ms] |] eqn:Ht;
      simpl in Hg; rewrite ?orb_true_r in Hg; try discriminate.
    assert (Hs : s <> "").
    { intros ->. discriminate. }
    revert Hcol. rewrite (POST_valid members w s Ht Hs).
    set (dv := assoc "date" members).
    set (w1 := if truthy dv then w else set_clock_reads (S (clock_reads w)) w).
    set (d := {| titre := Some (JString s); date := _; receivedAt := _;
                 recommendation := _; ip_source := _ |}).
    set (w2 := set_clock_reads (S (clock_reads w1)) w1).
    assert (Hc2 : collection w2 = collection w)
      by (subst w2 w1; destruct (truthy dv); reflexivity).
    rewrite (insert_event_clock d w2).
    destruct (insert_event_outcome d w2) as [(_ & _ & Hc) | (_ & _ & Hc)];
      rewrite Hc, Hc2; intros Heq.
    + apply app_inv_head in Heq. injection Heq as _ <-.
      subst d w2; simpl. auto.
    + symmetry in Heq. apply app_one_neq in Heq. contradiction.
Qed.

(** C7. Two payloads that agree on every field but [receivedAt] are
    handled alike: same answer, same world, same stored record. The
    record that a request stores carries as [receivedAt] the latest
    reading of the server clock made by that request. *)
Theorem POST_receivedAt_server_side (m1 m2 : list (string * json number)) (w : World) :
  (forall k, k <> "receivedAt" -> assoc k m1 = assoc k m2) ->
  POST env (Some (JObject m1)) w = POST env (Some (JObject m2)) w
  /\ (forall id doc,
        collection (snd (POST env (Some (JObject m1)) w))
        = collection w ++ [(id, doc)] ->
        receivedAt doc
        = clock env (pred (clock_reads (snd (POST env (Some (JObject m1)) w))))).
Proof.
  intros Hagree. split.
  - unfold POST, try_catch, bind, request_json, destructure, ret. simpl.
    rewrite (Hagree "titre"), (Hagree "date"), (Hagree "recommendation"),
      (Hagree "ip_source") by discriminate.
    reflexivity.
  - intros id doc Hcol. apply (POST_appends m1 w id doc Hcol).
Qed.


Lemma getClient_caches (w : World) (c : MongoClient) (w1 : World) :
  getClient env w = (Ok c, w1) -> cachedClient w1 = Some c.
Proof.
  destruct (cachedClient w) as [c0 |] eqn:Hc.
  - rewrite (getClient_cached w c0 Hc). intros [= <- <-]. exact Hc.
  - rewrite (getClient_fresh w Hc).
    destruct (uri_ok env); [| discriminate].
    destruct (connect_ok env (connects w)); [| discriminate].
    intros [= <- <-]. reflexivity.
Qed.

(** C9. A call of [getClient] that returns a handle leaves it cached: when
    the cache was empty that call constructed one client and connected it
    once, and from then on every call, whatever requests are served in
    between, returns the same handle and leaves the world as it is: no
    client is constructed and [connect] is not called again. *)
Theorem getClient_idempotent (w : World) (c : MongoClient) (w1 : World) :
  getClient env w = (Ok c, w1) ->
  (cachedClient w = None ->
   c = clients w /\ clients w1 = S (clients w) /\ connects w1 = S (connects w)
   /\ connected w1 = c :: connected w)
  /\ getClient env w1 = (Ok c, w1)
  /\ forall rs,
       let w2 := serve env rs w1 in
       getClient env w2 = (Ok c, w2)
       /\ clients w2 = clients w1 /\ connects w2 = connects w1
       /\ connected w2 = connected w1.
Proof.
  intros Hg. pose proof (getClient_caches w c w1 Hg) as Hc1.
  split; [| split].
  - intros Hc. revert Hg. rewrite (getClient_fresh w Hc).
    destruct (uri_ok env); [| discriminate].
    destruct (connect_ok env (connects w)); [| discriminate].
    intros [= <- <-]. simpl. auto.
  - apply getClient_cached. exact Hc1.
  - intros rs w2. subst w2.
    destruct (serve_keeps_client rs w1 c Hc1) as (K1 & K2 & K3 & K4).
    split; [apply getClient_cached; exact K1 | auto].
Qed.

(** C10. When the cache is empty, the connection string is well formed
    and [connect()] rejects, [getClient] throws but leaves the client it
    constructed in the cache. That client is not among the connected
    ones, and whatever requests follow, [getClient] returns it without
    constructing a client and without calling [connect] again. *)
Theorem getClient_caches_failed_client (w : World) :
  cachedClient w = None ->
  uri_ok env = true ->
  connect_ok env (connects w) = false ->
  exists w1,
    getClient env w = (Throw MongoNetworkError, w1)
    /\ cachedClient w1 = Some (clients w)
    /\ clients w1 = S (clients w)
    /\ connects w1 = S (connects w)
    /\ connected w1 = connected w
    /\ forall rs,
         let w2 := serve env rs w1 in
         getClient env w2 = (Ok (clients w), w2)
         /\ cachedClient w2 = Some (clients w)
         /\ clients w2 = clients w1
         /\ connects w2 = connects w1
         /\ connected w2 = connected w
         /\ ((forall x, In x (connected w) -> (x < clients w)%nat) ->
             ~ In (clients w) (connected w2)).
Proof.
  intros Hc Hu Hk. rewrite (getClient_fresh w Hc), Hu, Hk.
  eexists. split; [reflexivity |]. simpl.
  repeat (split; [reflexivity |]).
  intros rs.
  match goal with
  | |- context [serve env rs ?w1] =>
      destruct (serve_keeps_client rs w1 (clients w) eq_refl) as (K1 & K2 & K3 & K4)
  end.
  simpl in K2, K3, K4.
  split; [apply getClient_cached; exact K1 |].
  repeat (split; [assumption |]).
  intros Hwf Hin. rewrite K4 in Hin. apply Hwf in Hin. lia.
Qed.

(** The two outcomes of [GET]. *)
Lemma GET_outcome (w : World) :
  (store_reachable env w
   /\ fst (GET env w)
      = {| status := 200; body := Events (firstn 200 (sort_desc (collection w))) |})
  \/ (~ store_reachable env w
      /\ exists e, fst (GET env w) = {| status := 500; body := Failed e |}).
Proof.
  unfold store_reachable, client_available, GET, try_catch, bind.
  destruct (cachedClient w) as [c |] eqn:Hc.
  - rewrite (getClient_cached w c Hc). unfold find_sort_limit.
    destruct (store_ok env (operations w)) eqn:Hs; simpl.
    + left. split; [split; [left; discriminate | reflexivity] | reflexivity].
    + right. split; [intros [_ Hf]; discriminate | eauto].
  - rewrite (getClient_fresh w Hc).
    destruct (uri_ok env) eqn:Hu.
    + destruct (connect_ok env (connects w)) eqn:Hk; simpl.
      * unfold find_sort_limit. simpl.
        destruct (store_ok env (operations w)) eqn:Hs; simpl.
        -- left. split; [split; [right; split; reflexivity | reflexivity] | reflexivity].
        -- right. split; [intros [_ Hf]; discriminate | eauto].
      * right. split; [| eauto].
        intros [[Hf | [_ Hf]] _]; [congruence | discriminate].
    + simpl. right. split; [| eauto].
      intros [[Hf | [Hf _]] _]; [congruence | discriminate].
Qed.


End Route.

#[local] Existing Instance Engine.host.

(** The payload [{}] is rejected and the store keeps its size. *)
Lemma POST_rejects_invalid_titre_witness :
  invalid_titre (assoc "titre" [])
  /\ POST Engine.env_up (Some (JObject [])) Engine.fresh_world
     = ({| status := 400; body := TitreRequired |}, Engine.fresh_world)
  /\ collection (snd (POST Engine.env_up (Some (JObject [])) Engine.fresh_world))
     = collection Engine.fresh_world.
Proof.
  split; [left; reflexivity |].
  apply (POST_rejects_invalid_titre Engine.env_up [] Engine.fresh_world).
  left. reflexivity.
Defined.



(** Two payloads that differ in the [receivedAt] they claim. *)
Lemma POST_receivedAt_server_side_witness :
  let m1 := [("titre", JString "Port Scan"); ("receivedAt", JString "1999-12-31T00:00:00.000Z")] in
  let m2 := [("titre", JString "Port Scan")] in
  POST Engine.env_up (Some (JObject m1)) Engine.fresh_world
  = POST Engine.env_up (Some (JObject m2)) Engine.fresh_world
  /\ forall id doc,
       collection (snd (POST Engine.env_up (Some (JObject m1)) Engine.fresh_world))
       = [(id, doc)] ->
       receivedAt doc = 1704103200001.
Proof.
  intros m1 m2.
  assert (Hagree : forall k, k <> "receivedAt" -> assoc k m1 = assoc k m2).
  { intros k Hk. unfold m1, m2. cbn [assoc].
    destruct (String.eqb_spec "titre" k); [reflexivity |].
    destruct (String.eqb_spec "receivedAt" k); [congruence | reflexivity]. }
  destruct (POST_receivedAt_server_side Engine.env_up m1 m2 Engine.fresh_world Hagree)
    as [Heq Hrec].
  split; [exact Heq |].
  intros id doc Hcol. rewrite (Hrec id doc Hcol). reflexivity.
Defined.



(** The first call on a fresh process, then a query in between. *)
Lemma getClient_idempotent_witness :
  exists w1,
    getClient Engine.env_up Engine.fresh_world = (Ok 0%nat, w1)
    /\ getClient Engine.env_up w1 = (Ok 0%nat, w1)
    /\ getClient Engine.env_up (serve Engine.env_up [ReqGET] w1)
       = (Ok 0%nat, serve Engine.env_up [ReqGET] w1)
    /\ connects (serve Engine.env_up [ReqGET] w1) = 1%nat.
Proof.
  eexists. split; [reflexivity |].
  match goal with
  | |- getClient _ ?w1 = _ /\ _ =>
      destruct (getClient_idempotent Engine.env_up Engine.fresh_world 0%nat w1 eq_refl)
        as (_ & Hsame & Hlater)
  end.
  split; [exact Hsame |].
  destruct (Hlater [ReqGET]) as (Hg & _ & Hk & _).
  split; [exact Hg | exact Hk].
Defined.

(** The first call on a fresh process whose database refuses the
    connection, then an ingestion and a query. *)
Lemma getClient_caches_failed_client_witness :
  exists w1,
    getClient Engine.env_down Engine.fresh_world = (Throw MongoNetworkError, w1)
    /\ cachedClient w1 = Some 0%nat
    /\ forall rs,
         getClient Engine.env_down (serve Engine.env_down rs w1)
         = (Ok 0%nat, serve Engine.env_down rs w1)
         /\ connects (serve Engine.env_down rs w1) = 1%nat
         /\ ~ In 0%nat (connected (serve Engine.env_down rs w1)).
Proof.
  destruct (getClient_caches_failed_client Engine.env_down Engine.fresh_world
              eq_refl eq_refl eq_refl) as (w1 & Hg & Hc & _ & Hk & _ & Hlater).
  exists w1. split; [exact Hg |]. split; [exact Hc |].
  intros rs. destruct (Hlater rs) as (L1 & _ & _ & L4 & _ & L6).
  split; [exact L1 |]. split; [rewrite L4; exact Hk |].
  apply L6. intros x [].
Defined.


End WebhookFacts.

(** ** Properties of the dashboard aggregation *)

Module DashboardFacts.
Import JS Dashboard.

(** *** Sorting *)

Section Sorting.
Variable A : Type.
Variable comparefn : A -> A -> comparison.

Lemma insert_by_perm (x : A) (l : list A) :
  Permutation (insert_by comparefn x l) (x :: l).
Proof.
  induction l as [| y l IH]; simpl; [reflexivity |].
  destruct (comparefn x y); try reflexivity.
  rewrite IH. apply perm_swap.
Qed.

Lemma sort_by_perm (l : list A) : Permutation (sort_by comparefn l) l.
Proof.
  induction l as [| x l IH]; simpl; [reflexivity |].
  rewrite insert_by_perm. constructor. exact IH.
Qed.

Hypothesis comparefn_asym : forall a b, comparefn a b = Gt -> comparefn b a <> Gt.

Lemma insert_by_hd (x y : A) (l : list A) :
  not_after comparefn y x -> HdRel (not_after comparefn) y l -> HdRel (not_after comparefn) y (insert_by comparefn x l).
Proof.
  intros Hyx Hyl. destruct l as [| z l]; simpl; [constructor; exact Hyx |].
  apply HdRel_inv in Hyl.
  destruct (comparefn x z); constructor; assumption.
Qed.

Lemma insert_by_sorted (x : A) (l : list A) :
  Sorted (not_after comparefn) l -> Sorted (not_after comparefn) (insert_by comparefn x l).
Proof.
  induction l as [| y l IH]; intros Hs; simpl.
  - constructor; constructor.
  - apply Sorted_inv in Hs. destruct Hs as [Hl Hy].
    destruct (comparefn x y) eqn:Hc.
    + constructor; [constructor; assumption |].
      constructor. unfold not_after. rewrite Hc. discriminate.
    + constructor; [constructor; assumption |].
      constructor. unfold not_after. rewrite Hc. discriminate.
    + constructor; [apply IH; exact Hl |].
      apply insert_by_hd; [apply comparefn_asym; exact Hc | exact Hy].
Qed.

Lemma sort_by_sorted (l : list A) : Sorted (not_after comparefn) (sort_by comparefn l).
Proof.
  induction l as [| x l IH]; simpl; [constructor |].
  apply insert_by_sorted. exact IH.
Qed.

End Sorting.

Lemma Sorted_in_impl {A : Type} (R R' : A -> A -> Prop) (l : list A) :
  (forall a b, In a l -> In b l -> R a b -> R' a b) ->
  Sorted R l -> Sorted R' l.
Proof.
  induction l as [| x l IH]; intros Himp Hs; [constructor |].
  apply Sorted_inv in Hs. destruct Hs as [Hl Hx].
  constructor.
  - apply IH; [| exact Hl]. intros a b Ha Hb. apply Himp; right; assumption.
  - destruct Hx as [| y l' Hxy]; constructor.
    apply Himp; [left; reflexivity | right; left; reflexivity | exact Hxy].
Qed.

Lemma filter_split_perm {A : Type} (f : A -> bool) (l : list A) :
  Permutation (filter f l ++ filter (fun x => negb (f x)) l) l.
Proof.
  induction l as [| x l IH]; simpl; [reflexivity |].
  destruct (f x); simpl.
  - constructor. exact IH.
  - symmetry. apply Permutation_cons_app. symmetry. exact IH.
Qed.

Lemma Object_keys_perm (d : JsObject) : Permutation (Object_keys d) (map fst d).
Proof.
  unfold Object_keys.
  rewrite (sort_by_perm _ index_compare). apply filter_split_perm.
Qed.

(** *** The order of strings *)

Lemma string_lt_trans (a b c : string) :
  string_lt a b -> string_lt b c -> string_lt a c.
Proof.
  unfold string_lt. revert b c.
  induction a as [| x a IH]; intros [| y b] [| z c]; simpl; try discriminate;
    try reflexivity.
  destruct (Ascii.compare x y) eqn:Hxy; try discriminate.
  - apply Ascii.compare_eq_iff in Hxy. subst y.
    destruct (Ascii.compare x z); try discriminate; [apply IH | reflexivity].
  - intros _. destruct (Ascii.compare y z) eqn:Hyz; try discriminate.
    + apply Ascii.compare_eq_iff in Hyz. subst z. rewrite Hxy. reflexivity.
    + intros _. unfold Ascii.compare in *.
      rewrite N.compare_lt_iff in Hxy, Hyz.
      assert (Hxz : (N_of_ascii x ?= N_of_ascii z)%N = Lt)
        by (apply N.compare_lt_iff; lia).
      rewrite Hxz. reflexivity.
Qed.

Lemma string_compare_asym (a b : string) :
  String.compare a b = Gt -> String.compare b a <> Gt.
Proof.
  intros Hab. rewrite String.compare_antisym, Hab. discriminate.
Qed.

(** A list of distinct strings that [sort()] put in order is strictly
    ascending. *)
Lemma sorted_strings_strict (l : list string) :
  NoDup l -> Sorted (not_after String.compare) l -> StronglySorted string_lt l.
Proof.
  intros Hnd Hs. apply Sorted_StronglySorted.
  - intros a b c. apply string_lt_trans.
  - induction Hs as [| x l Hl IH Hx]; [constructor |].
    apply NoDup_cons_iff in Hnd. destruct Hnd as [Hnx Hnd].
    constructor; [apply IH; exact Hnd |].
    destruct Hx as [| y l' Hxy]; constructor.
    unfold string_lt, not_after in *.
    destruct (String.compare x y) eqn:Hc; [| reflexivity | congruence].
    apply String.compare_eq_iff in Hc. subst y.
    exfalso. apply Hnx. left. reflexivity.
Qed.

(** *** Objects as counters *)

Lemma assoc_none {V : Type} (k : string) (d : list (string * V)) :
  assoc k d = None <-> ~ In k (map fst d).
Proof.
  induction d as [| [k' v] d IH]; simpl; [tauto |].
  destruct (String.eqb_spec k' k) as [-> | Hne].
  - split; [discriminate | intros Hn; exfalso; apply Hn; left; reflexivity].
  - rewrite IH. tauto.
Qed.

Lemma total_map_add {A : Type} (f g : A -> Z) (l : list A) :
  total (map (fun x => f x + g x) l) = total (map f l) + total (map g l).
Proof. induction l as [| x l IH]; simpl; [reflexivity | rewrite IH; lia]. Qed.

Lemma total_map_zero {A : Type} (f : A -> Z) (l : list A) :
  (forall x, In x l -> f x = 0) -> total (map f l) = 0.
Proof.
  induction l as [| x l IH]; intros Hz; simpl; [reflexivity |].
  rewrite (Hz x) by (left; reflexivity). rewrite IH; [reflexivity |].
  intros y Hy. apply Hz. right. exact Hy.
Qed.

Lemma total_indicator (a : string) (l : list string) :
  NoDup l -> In a l ->
  total (map (fun k => if string_dec a k then 1 else 0) l) = 1.
Proof.
  induction l as [| x l IH]; intros Hnd Hin; [contradiction |].
  apply NoDup_cons_iff in Hnd. destruct Hnd as [Hnx Hnd]. simpl.
  destruct (string_dec a x) as [-> | Hne].
  - rewrite total_map_zero; [reflexivity |].
    intros y Hy. destruct (string_dec x y) as [-> | _]; [contradiction | reflexivity].
  - destruct Hin as [Heq | Hin]; [congruence |].
    rewrite (IH Hnd Hin). reflexivity.
Qed.

Lemma occurrences_cons (a k : string) (keys : list string) :
  occurrences k (a :: keys)
  = occurrences k keys + (if string_dec a k then 1 else 0).
Proof.
  unfold occurrences. simpl. destruct (string_dec a k); lia.
Qed.

Lemma occurrences_snoc (a k : string) (keys : list string) :
  occurrences k (keys ++ [a])
  = occurrences k keys + (if string_dec a k then 1 else 0).
Proof.
  unfold occurrences. rewrite count_occ_app. simpl.
  destruct (string_dec a k); lia.
Qed.

Lemma occurrences_pos (k : string) (keys : list string) :
  In k keys -> 1 <= occurrences k keys.
Proof.
  intros Hin. unfold occurrences.
  apply (count_occ_In string_dec) in Hin. lia.
Qed.

(** The counts of the distinct keys add up to the number of keys. *)
Lemma total_occurrences (keys l : list string) :
  NoDup l -> (forall k, In k keys -> In k l) ->
  total (map (fun k => occurrences k keys) l) = Z.of_nat (List.length keys).
Proof.
  intros Hnd. induction keys as [| a keys IH]; intros Hcov.
  - apply total_map_zero. intros; reflexivity.
  - rewrite (map_ext _ _ (fun k => occurrences_cons a k keys)).
    rewrite total_map_add, IH, total_indicator.
    + simpl List.length. lia.
    + exact Hnd.
    + apply Hcov. left. reflexivity.
    + intros k Hk. apply Hcov. right. exact Hk.
Qed.

Section Counters.
Context `{Host}.

Lemma own_set_assoc (d : JsObject) (k k' : string) (v : jsval) :
  assoc k' (own_set d k v) = if (k =? k')%string then Some v else assoc k' d.
Proof.
  induction d as [| [k0 v0] d IH]; simpl.
  - reflexivity.
  - destruct (String.eqb_spec k0 k) as [-> | Hne]; simpl.
    + destruct (String.eqb_spec k k'); reflexivity.
    + rewrite IH. destruct (String.eqb_spec k0 k') as [-> | Hne'];
        [| reflexivity].
      destruct (String.eqb_spec k k'); [congruence | reflexivity].
Qed.

Lemma own_set_keys_new (d : JsObject) (k : string) (v : jsval) :
  assoc k d = None -> map fst (own_set d k v) = map fst d ++ [k].
Proof.
  induction d as [| [k0 v0] d IH]; simpl; intros Hn; [reflexivity |].
  destruct (k0 =? k)%string; [discriminate |]. simpl. rewrite IH; auto.
Qed.

Lemma own_set_keys_old (d : JsObject) (k : string) (v v0 : jsval) :
  assoc k d = Some v0 -> map fst (own_set d k v) = map fst d.
Proof.
  induction d as [| [k1 v1] d IH]; simpl; intros Hs; [discriminate |].
  destruct (k1 =? k)%string; [reflexivity |]. simpl. rewrite IH; auto.
Qed.

Lemma clean_not_proto (k : string) :
  is_proto_name k = false -> (k =? "__proto__")%string = false.
Proof.
  intros Hc. destruct (String.eqb_spec k "__proto__") as [-> | _];
    [discriminate | reflexivity].
Qed.

Lemma increment_new (d : JsObject) (k : string) :
  is_proto_name k = false -> assoc k d = None ->
  increment d k = own_set d k (VNum 1).
Proof.
  intros Hc Hn. unfold increment, prop_set, prop_get. rewrite Hn, Hc.
  rewrite (clean_not_proto k Hc). reflexivity.
Qed.

Lemma increment_old (d : JsObject) (k : string) (n : Z) :
  n <> 0 -> assoc k d = Some (VNum n) ->
  increment d k = own_set d k (VNum (n + 1)).
Proof.
  intros Hn Hs. unfold increment, prop_set, prop_get, or_zero. rewrite Hs.
  simpl. destruct (Z.eqb_spec n 0); [contradiction | reflexivity].
Qed.

Lemma tallies_nil : tallies [] [].
Proof.
  split; [constructor |]. split; [tauto | intros k []].
Qed.

Lemma increment_tallies (d : JsObject) (done : list string) (k : string) :
  is_proto_name k = false -> tallies d done ->
  tallies (increment d k) (done ++ [k]).
Proof.
  intros Hc (Hnd & Hdom & Hval).
  destruct (assoc k d) as [v |] eqn:Hk.
  - assert (Hin : In k done).
    { apply Hdom. destruct (in_dec string_dec k (map fst d)) as [Hi | Hi];
        [exact Hi |]. apply assoc_none in Hi. congruence. }
    pose proof (Hval k Hin) as Hv. rewrite Hk in Hv. injection Hv as ->.
    pose proof (occurrences_pos k done Hin) as Hpos.
    assert (Hnz : occurrences k done <> 0) by lia.
    rewrite (increment_old d k _ Hnz Hk).
    split; [| split].
    + rewrite (own_set_keys_old d k _ _ Hk). exact Hnd.
    + intros k'. rewrite (own_set_keys_old d k _ _ Hk), Hdom, in_app_iff.
      simpl. split; [tauto | intros [Hi | [<- | []]]; assumption].
    + intros k' Hk'. rewrite own_set_assoc, occurrences_snoc.
      destruct (String.eqb_spec k k') as [<- | Hne].
      * destruct (string_dec k k); [reflexivity | contradiction].
      * destruct (string_dec k k'); [contradiction |].
        rewrite Z.add_0_r. apply Hval.
        apply in_app_iff in Hk'. destruct Hk' as [Hi | [Heq | []]];
          [exact Hi | contradiction].
  - pose proof Hk as Hnin. apply assoc_none in Hnin.
    assert (Hnd' : ~ In k done) by (intros Hi; apply Hnin, Hdom, Hi).
    rewrite (increment_new d k Hc Hk).
    split; [| split].
    + rewrite (own_set_keys_new d k _ Hk).
      apply NoDup_app.
      * exact Hnd.
      * constructor; [intros [] | constructor].
      * intros x Hx [<- | []]. apply Hnin. exact Hx.
    + intros k'. rewrite (own_set_keys_new d k _ Hk), !in_app_iff, Hdom.
      tauto.
    + intros k' Hk'. rewrite own_set_assoc, occurrences_snoc.
      destruct (String.eqb_spec k k') as [<- | Hne].
      * destruct (string_dec k k); [| contradiction].
        unfold occurrences.
        apply (count_occ_not_In string_dec) in Hnd'. rewrite Hnd'. reflexivity.
      * destruct (string_dec k k'); [contradiction |].
        rewrite Z.add_0_r. apply Hval.
        apply in_app_iff in Hk'. destruct Hk' as [Hi | [Heq | []]];
          [exact Hi | contradiction].
Qed.

Lemma fold_increment_tallies (keys : list string) (d : JsObject) (done : list string) :
  Forall (fun k => is_proto_name k = false) keys ->
  tallies d done ->
  tallies (fold_left increment keys d) (done ++ keys).
Proof.
  revert d done. induction keys as [| k keys IH]; intros d done Hc Ht; simpl.
  - rewrite app_nil_r. exact Ht.
  - inversion Hc as [| ? ? Hk Hks]; subst.
    replace (done ++ k :: keys) with ((done ++ [k]) ++ keys)
      by (rewrite <- app_assoc; reflexivity).
    apply IH; [exact Hks |]. apply increment_tallies; assumption.
Qed.

End Counters.

(** *** Bucket keys never name a member of [Object.prototype] *)

Lemma digit_char_cases (n : Z) :
  In (digit_char n) ["0"; "1"; "2"; "3"; "4"; "5"; "6"; "7"; "8"; "9"]%char.
Proof.
  unfold digit_char.
  pose proof (Z.mod_pos_bound n 10 ltac:(lia)) as Hb.
  assert (Hc : n mod 10 = 0 \/ n mod 10 = 1 \/ n mod 10 = 2 \/ n mod 10 = 3
               \/ n mod 10 = 4 \/ n mod 10 = 5 \/ n mod 10 = 6 \/ n mod 10 = 7
               \/ n mod 10 = 8 \/ n mod 10 = 9) by lia.
  repeat (destruct Hc as [Hc | Hc]; [rewrite Hc; simpl; tauto |]).
  rewrite Hc. simpl. tauto.
Qed.

Lemma year_string_head (y : Z) :
  exists c r,
    year_string y = String c r
    /\ In c ["0"; "1"; "2"; "3"; "4"; "5"; "6"; "7"; "8"; "9"; "+"; "-"]%char.
Proof.
  unfold year_string. destruct ((0 <=? y) && (y <=? 9999)).
  - exists (digit_char (y / 10 ^ Z.of_nat 3)), (pad 3 y).
    split; [reflexivity |].
    pose proof (digit_char_cases (y / 10 ^ Z.of_nat 3)) as Hd.
    simpl in *. tauto.
  - destruct (y <? 0).
    + exists "-"%char, (pad 6 (Z.abs y)). split; [reflexivity | simpl; tauto].
    + exists "+"%char, (pad 6 (Z.abs y)). split; [reflexivity | simpl; tauto].
Qed.

Lemma iso_of_time_head (t : Z) :
  exists c r,
    iso_of_time t = String c r
    /\ In c ["0"; "1"; "2"; "3"; "4"; "5"; "6"; "7"; "8"; "9"; "+"; "-"]%char.
Proof.
  unfold iso_of_time.
  destruct (civil_from_days (t / msPerDay)) as [[y m] d].
  destruct (year_string_head y) as (c & r & -> & Hc).
  simpl. eauto.
Qed.

Lemma iso_key_clean (t : Z) (n : nat) :
  is_proto_name (slice0 (S n) (iso_of_time t)) = false.
Proof.
  destruct (iso_of_time_head t) as (c & r & -> & Hc).
  unfold slice0. simpl substring.
  simpl in Hc.
  repeat (destruct Hc as [<- | Hc]; [reflexivity |]).
  contradiction.
Qed.

Lemma bind_run {S A B : Type} (m : M S A) (k : A -> M S B) (s : S) :
  bind m k s
  = match m s with
    | (Ok a, s') => k a s'
    | (Throw e, s') => (Throw e, s')
    end.
Proof. reflexivity. Qed.

Section Page.
Context `{Host}.
Variable clock : nat -> Z.

Lemma fold_left_titles (events : list EventData) (d : JsObject) :
  fold_left (fun d ev => increment d (titre ev)) events d
  = fold_left increment (map titre events) d.
Proof.
  revert d. induction events as [| ev events IH]; intros d; simpl;
    [reflexivity | apply IH].
Qed.

(** What [Object.keys], [sort] and [map] make of a tally. *)
Lemma tallied_output (d : JsObject) (keys : list string)
  (comparefn : string -> string -> comparison) :
  tallies d keys ->
  let labels := sort_by comparefn (Object_keys d) in
  NoDup labels
  /\ (forall k, In k labels <-> In k keys)
  /\ map (fun l => prop_get d l) labels
     = map (fun l => count (occurrences l keys)) labels
  /\ Forall (fun l => 1 <= occurrences l keys) labels
  /\ total (map (fun l => occurrences l keys) labels) = Z.of_nat (List.length keys).
Proof.
  intros (Hnd & Hdom & Hval) labels.
  assert (Hp : Permutation labels (map fst d)).
  { subst labels. rewrite sort_by_perm. apply Object_keys_perm. }
  assert (Hin : forall k, In k labels <-> In k keys).
  { intros k. rewrite <- Hdom. split; apply Permutation_in;
      [exact Hp | symmetry; exact Hp]. }
  assert (Hndl : NoDup labels).
  { apply (Permutation_NoDup (Permutation_sym Hp)). exact Hnd. }
  split; [exact Hndl |]. split; [exact Hin |]. split; [| split].
  - apply map_ext_in. intros l Hl. unfold prop_get, count.
    rewrite (Hval l); [reflexivity | apply Hin; exact Hl].
  - apply Forall_forall. intros l Hl. apply occurrences_pos, Hin, Hl.
  - apply total_occurrences; [exact Hndl | intros k Hk; apply Hin; exact Hk].
Qed.

Lemma forEach_bucket_keys (group : TimeGrouping) (events : list EventData)
  (acc : JsObject) (n : nat) :
  forEach events
    (fun counts ev =>
       bind (bucket_key clock group ev) (fun key => ret (increment counts key)))
    acc n
  = match bucket_keys clock group events n with
    | (Ok keys, n') => (Ok (fold_left increment keys acc), n')
    | (Throw e, n') => (Throw e, n')
    end.
Proof.
  revert acc n. induction events as [| ev events IH]; intros acc n.
  - reflexivity.
  - cbn [forEach bucket_keys]. rewrite !bind_run.
    destruct (bucket_key clock group ev n) as [[key | e] n1]; [| reflexivity].
    unfold ret at 1. cbv beta iota. rewrite IH, bind_run.
    destruct (bucket_keys clock group events n1) as [[keys | e] n2]; reflexivity.
Qed.

Lemma bucket_key_ok (group : TimeGrouping) (ev : EventData) (n : nat) :
  (forall s, time_string ev = Some s -> Date_parse s <> None) ->
  exists key n',
    bucket_key clock group ev n = (Ok key, n') /\ is_proto_name key = false.
Proof.
  intros Hwf.
  assert (Hraw : exists raw n',
             raw_of clock ev n = (Ok raw, n')
             /\ exists t, new_Date raw = DateAt t).
  { unfold raw_of. unfold time_string in Hwf.
    destruct (str_truthy (Some (date ev))) eqn:Hd.
    - exists (RawString (date ev)), n. split; [reflexivity |].
      simpl. specialize (Hwf _ eq_refl).
      destruct (Date_parse (date ev)) as [t |]; [exists t; reflexivity | contradiction].
    - destruct (receivedAt ev) as [s |]; simpl in *.
      + destruct (negb (s =? "")%string) eqn:Hs.
        * exists (RawString s), n. split; [reflexivity |].
          simpl. specialize (Hwf _ eq_refl).
          destruct (Date_parse s) as [t |]; [exists t; reflexivity | contradiction].
        * exists (RawNumber (clock n)), (S n). split; [reflexivity |].
          simpl. eauto.
      + exists (RawNumber (clock n)), (S n). split; [reflexivity |].
        simpl. eauto. }
  destruct Hraw as (raw & n' & Hr & t & Ht).
  unfold bucket_key, bind. rewrite Hr, Ht. simpl.
  destruct group; simpl; do 2 eexists; (split; [reflexivity |]);
    apply iso_key_clean.
Qed.

Lemma bucket_keys_ok (group : TimeGrouping) (events : list EventData) (n : nat) :
  well_formed events ->
  exists keys n',
    bucket_keys clock group events n = (Ok keys, n')
    /\ Forall (fun k => is_proto_name k = false) keys
    /\ List.length keys = List.length events.
Proof.
  revert n. induction events as [| ev events IH]; intros n Hwf.
  - exists [], n. repeat split. constructor.
  - inversion Hwf as [| ? ? Hev Hevs]; subst.
    destruct (bucket_key_ok group ev n Hev) as (key & n1 & Hk & Hc).
    destruct (IH n1 Hevs) as (keys & n2 & Hks & Hcs & Hlen).
    exists (key :: keys), n2. simpl. unfold bind. rewrite Hk, Hks.
    repeat split; [constructor; assumption | simpl; congruence].
Qed.

Lemma computeTimeSeries_running (group : TimeGrouping) (events : list EventData)
  (n : nat) :
  well_formed events ->
  exists out n', computeTimeSeries clock events group n = (Ok out, n').
Proof.
  intros Hwf.
  destruct (bucket_keys_ok group events n Hwf) as (keys & n' & Hks & _ & _).
  unfold computeTimeSeries. rewrite bind_run, forEach_bucket_keys, Hks.
  unfold ret. eauto.
Qed.

(** C4. On a well-formed window [computeTimeSeries] returns. Its labels
    are the bucket keys of the events, each once, in strictly ascending
    order; the count of a label is the number of events of that bucket,
    so it is at least 1 (a bucket without events is not listed) and the
    counts add up to the size of the window. *)
Theorem computeTimeSeries_buckets (group : TimeGrouping) (events : list EventData)
  (n : nat) :
  well_formed events ->
  exists keys labels counts n',
    bucket_keys clock group events n = (Ok keys, n')
    /\ computeTimeSeries clock events group n = (Ok (labels, map count counts), n')
    /\ List.length keys = List.length events
    /\ StronglySorted string_lt labels
    /\ NoDup labels
    /\ (forall k, In k labels <-> In k keys)
    /\ counts = map (fun l => occurrences l keys) labels
    /\ Forall (fun c => 1 <= c) counts
    /\ total counts = Z.of_nat (List.length events).
Proof.
  intros Hwf.
  destruct (bucket_keys_ok group events n Hwf) as (keys & n' & Hks & Hclean & Hlen).
  pose proof (fold_increment_tallies keys [] [] Hclean tallies_nil) as Ht.
  simpl in Ht.
  destruct (tallied_output _ keys String.compare Ht) as (Hnd & Hin & Hdata & Hpos & Htot).
  set (d := fold_left increment keys []) in *.
  set (labels := sort_by String.compare (Object_keys d)) in *.
  exists keys, labels, (map (fun l => occurrences l keys) labels), n'.
  split; [exact Hks |]. split.
  { unfold computeTimeSeries. rewrite bind_run, forEach_bucket_keys, Hks.
    fold d. fold labels. unfold ret. rewrite map_map, Hdata. reflexivity. }
  split; [exact Hlen |]. split.
  { apply sorted_strings_strict; [exact Hnd |].
    apply sort_by_sorted. exact string_compare_asym. }
  split; [exact Hnd |]. split; [exact Hin |]. split; [reflexivity |]. split.
  - apply Forall_map. exact Hpos.
  - rewrite Htot, Hlen. reflexivity.
Qed.

(** C3. The aggregation functions return on every well-formed window:
    [computeTimeSeries] does not throw, [computeTitleBars] yields as
    many counts as labels, and the statistics are bounded by the size of
    the window. On the empty window the charts are empty and the
    statistics are 0, 0, 0 and no last event. *)
Theorem aggregation_total :
  (forall events group n,
     well_formed events ->
     exists out n', computeTimeSeries clock events group n = (Ok out, n'))
  /\ (forall events,
        exists labels data,
          computeTitleBars events = (labels, data)
          /\ List.length data = List.length labels)
  /\ (forall events,
        totalCount (summaryStats events) = List.length events
        /\ (uniqueSourceCount (summaryStats events) <= List.length events)%nat
        /\ (recommendationCount (summaryStats events) <= List.length events)%nat)
  /\ (forall group n, computeTimeSeries clock [] group n = (Ok ([], []), n))
  /\ computeTitleBars [] = ([], [])
  /\ summaryStats []
     = {| totalCount := 0; uniqueSourceCount := 0; recommendationCount := 0;
          mostRecent := None |}.
Proof.
  split; [| split; [| split; [| split; [| split]]]]; try reflexivity.
  - intros events group n Hwf.
    destruct (computeTimeSeries_running group events n Hwf) as (out & n' & Hr).
    eauto.
  - intros events. unfold computeTitleBars. do 2 eexists.
    split; [reflexivity |]. apply length_map.
  - intros events. simpl. split; [reflexivity |]. split.
    + unfold uniqueIPs.
      set (ips := map ip_source
                    (filter (fun e => str_truthy (ip_source e)) events)).
      apply Nat.le_trans with (List.length ips).
      * apply NoDup_incl_length; [apply NoDup_nodup |].
        intros x Hx. apply nodup_In in Hx. exact Hx.
      * subst ips. rewrite length_map. apply filter_length_le.
    + unfold eventsWithRecommendation. apply filter_length_le.
Qed.

Lemma increment_keeps_no_proto (d : JsObject) (k : string) :
  assoc "__proto__" d = None -> assoc "__proto__" (increment d k) = None.
Proof.
  intros Hn. unfold increment, prop_set.
  destruct (String.eqb_spec k "__proto__") as [-> | Hne].
  - rewrite Hn. exact Hn.
  - assert (He : (k =? "__proto__")%string = false)
      by (apply String.eqb_neq; exact Hne).
    destruct (assoc k d); rewrite own_set_assoc, He; exact Hn.
Qed.

Lemma fold_increment_no_proto (keys : list string) (d : JsObject) :
  assoc "__proto__" d = None ->
  assoc "__proto__" (fold_left increment keys d) = None.
Proof.
  revert d. induction keys as [| k keys IH]; intros d Hn; simpl; [exact Hn |].
  apply IH, increment_keeps_no_proto, Hn.
Qed.

(** C5, where the code departs from it. The title [__proto__] is never
    a label, whatever the window: reading [d['__proto__']] yields
    [Object.prototype], and the assignment of a string to it is dropped
    by the inherited setter. A window of one event with that title
    yields no label and no count. *)
Theorem computeTitleBars_drops_proto_title :
  (forall events, ~ In "__proto__" (fst (computeTitleBars events)))
  /\ computeTitleBars [Engine.event "__proto__" "2024-01-01T10:00:00.000Z"]
     = ([], []).
Proof.
  split; [| reflexivity].
  intros events. unfold computeTitleBars. cbn [fst].
  rewrite fold_left_titles.
  set (d := fold_left increment (map titre events) []).
  intros Hin.
  apply (Permutation_in _ (sort_by_perm _ _ _)) in Hin.
  apply (Permutation_in _ (Object_keys_perm d)) in Hin.
  assert (Hn : assoc "__proto__" d = None)
    by (apply fold_increment_no_proto; reflexivity).
  apply assoc_none in Hn. contradiction.
Qed.

Lemma count_compare_asym (d : JsObject) (a b : string) :
  sign (minus (prop_get d b) (prop_get d a)) = Gt ->
  sign (minus (prop_get d a) (prop_get d b)) <> Gt.
Proof.
  destruct (prop_get d a) as [| [na | sa |] | fa];
    destruct (prop_get d b) as [| [nb | sb |] | fb]; simpl; try discriminate.
  intros H1 H2. apply Z.compare_gt_iff in H1. apply Z.compare_gt_iff in H2. lia.
Qed.

(** X16. What [computeTitleBars] does for titles that do not name a member of
    [Object.prototype]: the labels are the distinct titles, compared as
    they are, each once; every count is the number of events with that
    very title; the counts add up to the size of the window; the labels
    are in order of non-increasing count. *)
Theorem computeTitleBars_counts (events : list EventData) :
  Forall (fun ev => is_proto_name (titre ev) = false) events ->
  let titles := map titre events in
  exists labels counts,
    computeTitleBars events = (labels, map count counts)
    /\ NoDup labels
    /\ (forall t, In t labels <-> In t titles)
    /\ counts = map (fun l => occurrences l titles) labels
    /\ total counts = Z.of_nat (List.length events)
    /\ Sorted (fun a b => occurrences b titles <= occurrences a titles) labels.
Proof.
  intros Hclean titles.
  assert (Hc : Forall (fun k => is_proto_name k = false) titles).
  { subst titles. apply Forall_map. exact Hclean. }
  pose proof (fold_increment_tallies titles [] [] Hc tallies_nil) as Ht.
  simpl in Ht.
  set (d := fold_left increment titles []) in *.
  set (cmp := fun a b => sign (minus (prop_get d b) (prop_get d a))).
  destruct (tallied_output d titles cmp Ht) as (Hnd & Hin & Hdata & Hpos & Htot).
  set (labels := sort_by cmp (Object_keys d)) in *.
  exists labels, (map (fun l => occurrences l titles) labels).
  split.
  { unfold computeTitleBars. rewrite fold_left_titles. fold titles. fold d.
    fold cmp. fold labels. rewrite map_map, Hdata. reflexivity. }
  split; [exact Hnd |]. split; [exact Hin |]. split; [reflexivity |]. split.
  { rewrite Htot. subst titles. rewrite length_map. reflexivity. }
  apply (Sorted_in_impl (not_after cmp)).
  - intros a b Ha Hb. unfold not_after, cmp, prop_get.
    destruct Ht as (_ & _ & Hval).
    rewrite (Hval a), (Hval b) by (apply Hin; assumption). simpl.
    intros Hng.
    destruct (Z.compare_spec (occurrences b titles - occurrences a titles) 0);
      try lia. contradiction.
  - apply sort_by_sorted. intros a b. apply count_compare_asym.
Qed.

End Page.

#[local] Existing Instance Engine.host.

(** The window of the three events of 2024-01-01T10:00, 2024-01-01T11:00
    and 2024-01-02T09:00, newest first, with a clock that is not read. *)
Lemma three_events_well_formed :
  well_formed
    [Engine.event "Port Scan" "2024-01-02T09:00:00.000Z";
     Engine.event "Port Scan" "2024-01-01T11:00:00.000Z";
     Engine.event "Brute Force" "2024-01-01T10:00:00.000Z"].
Proof.
  repeat constructor; intros s Hs; vm_compute in Hs; injection Hs as <-;
    vm_compute; discriminate.
Qed.

Example computeTimeSeries_by_day :
  computeTimeSeries (fun _ => 0)
    [Engine.event "Port Scan" "2024-01-02T09:00:00.000Z";
     Engine.event "Port Scan" "2024-01-01T11:00:00.000Z";
     Engine.event "Brute Force" "2024-01-01T10:00:00.000Z"] jour 0%nat
  = (Ok (["2024-01-01"; "2024-01-02"], [count 2; count 1]), 0%nat).
Proof. reflexivity. Qed.

Example computeTimeSeries_by_hour :
  computeTimeSeries (fun _ => 0)
    [Engine.event "Port Scan" "2024-01-02T09:00:00.000Z";
     Engine.event "Port Scan" "2024-01-01T11:00:00.000Z";
     Engine.event "Brute Force" "2024-01-01T10:00:00.000Z"] heure 0%nat
  = (Ok (["2024-01-01T10"; "2024-01-01T11"; "2024-01-02T09"],
         [count 1; count 1; count 1]), 0%nat).
Proof. reflexivity. Qed.

(** An event whose date does not parse makes [toISOString] throw. *)
Example computeTimeSeries_invalid_date :
  computeTimeSeries (fun _ => 0) [Engine.event "Port Scan" "yesterday"] jour 0%nat
  = (Throw RangeError, 0%nat).
Proof. reflexivity. Qed.

Example computeTitleBars_scenario :
  computeTitleBars
    [Engine.event "Port Scan" ""; Engine.event "Port Scan" "";
     Engine.event "Brute Force" ""]
  = (["Port Scan"; "Brute Force"], [count 2; count 1]).
Proof. reflexivity. Qed.

(** Titles are compared as they are: case and blanks count. *)
Example computeTitleBars_exact_titles :
  computeTitleBars
    [Engine.event "scan" ""; Engine.event "Scan" ""; Engine.event "scan " "";
     Engine.event "Scan" ""]
  = (["Scan"; "scan"; "scan "], [count 2; count 1; count 1]).
Proof. reflexivity. Qed.

(** A title that names a function of [Object.prototype] is counted by
    appending 1s to the text of that function. *)
Example computeTitleBars_constructor_title :
  computeTitleBars [Engine.event "constructor" ""; Engine.event "constructor" ""]
  = (["constructor"], [Val (VStr "function Object() { [native code] }11")]).
Proof. reflexivity. Qed.

Lemma computeTimeSeries_buckets_witness :
  let events :=
    [Engine.event "Port Scan" "2024-01-02T09:00:00.000Z";
     Engine.event "Port Scan" "2024-01-01T11:00:00.000Z";
     Engine.event "Brute Force" "2024-01-01T10:00:00.000Z"] in
  well_formed events
  /\ exists labels counts n',
       computeTimeSeries (fun _ => 0) events jour 0%nat
       = (Ok (labels, map count counts), n')
       /\ StronglySorted string_lt labels
       /\ NoDup labels
       /\ Forall (fun c => 1 <= c) counts
       /\ total counts = 3.
Proof.
  intros events. split; [exact three_events_well_formed |].
  destruct (computeTimeSeries_buckets (fun _ => 0) jour events 0%nat
              three_events_well_formed)
    as (keys & labels & counts & n' & _ & Hrun & _ & Hs & Hnd & _ & _ & Hpos & Htot).
  exists labels, counts, n'. repeat split; assumption.
Defined.

Lemma aggregation_total_witness :
  well_formed
    [Engine.event "Port Scan" "2024-01-02T09:00:00.000Z";
     Engine.event "Port Scan" "2024-01-01T11:00:00.000Z";
     Engine.event "Brute Force" "2024-01-01T10:00:00.000Z"]
  /\ (exists out n',
        computeTimeSeries (fun _ => 0)
          [Engine.event "Port Scan" "2024-01-02T09:00:00.000Z";
           Engine.event "Port Scan" "2024-01-01T11:00:00.000Z";
           Engine.event "Brute Force" "2024-01-01T10:00:00.000Z"] heure 0%nat
        = (Ok out, n'))
  /\ mostRecent (summaryStats []) = None.
Proof.
  destruct (aggregation_total (fun _ => 0)) as (Hts & _ & _ & _ & _ & Hempty).
  split; [exact three_events_well_formed |]. split.
  - apply Hts. exact three_events_well_formed.
  - rewrite Hempty. reflexivity.
Defined.

Lemma computeTitleBars_counts_witness :
  let events :=
    [Engine.event "Port Scan" ""; Engine.event "Port Scan" "";
     Engine.event "Brute Force" ""] in
  Forall (fun ev => is_proto_name (titre ev) = false) events
  /\ exists labels counts,
       computeTitleBars events = (labels, map count counts)
       /\ NoDup labels
       /\ total counts = 3.
Proof.
  intros events.
  assert (Hc : Forall (fun ev => is_proto_name (titre ev) = false) events)
    by (repeat constructor).
  split; [exact Hc |].
  destruct (computeTitleBars_counts events Hc)
    as (labels & counts & Hrun & Hnd & _ & _ & Htot & _).
  exists labels, counts. repeat split; assumption.
Defined.

End DashboardFacts.

(** ** Invariants of the webhook route over sequences of requests *)

Module WebhookInvariants.
Import JS Webhook WebhookFacts.

Section Route.
Context `{Host}.
Variable env : Env.

(** What [getClient] does to the cache and the counters. *)
Lemma getClient_step (w : World) :
  let w' := snd (getClient env w) in
  (cachedClient w' = cachedClient w /\ clients w' = clients w
   /\ connects w' = connects w /\ connected w' = connected w
   /\ (cachedClient w = None -> uri_ok env = false))
  \/ (cachedClient w = None /\ uri_ok env = true
      /\ cachedClient w' = Some (clients w)
      /\ clients w' = S (clients w) /\ connects w' = S (connects w)).
Proof.
  destruct (cachedClient w) as [c |] eqn:Hc.
  - rewrite (getClient_cached env w c Hc). simpl. left.
    repeat split; auto. discriminate.
  - rewrite (getClient_fresh env w Hc). destruct (uri_ok env) eqn:Hu.
    + right. destruct (connect_ok env (connects w)); simpl; auto.
    + left. simpl. auto.
Qed.

(** The effect of the last statements of [POST]. *)
Lemma insert_event_effect (doc : EventDoc) (w : World) :
  let r := try_catch (insert_event env doc) POST_catch w in
  (fst r = {| status := 200; body := Inserted (operations w) |}
   /\ collection (snd r) = collection w ++ [(operations w, doc)]
   /\ console (snd r) = console w)
  \/ (exists e,
        fst r = {| status := 500; body := Failed e |}
        /\ collection (snd r) = collection w
        /\ console (snd r) = console w ++ [e]).
Proof.
  unfold try_catch, insert_event, bind.
  pose proof (getClient_frame env w) as (Hcol & Hops & _ & Hcon).
  destruct (getClient env w) as [[c | e] w1]; simpl in *.
  - unfold insertOne. rewrite Hops.
    destruct (store_ok env (operations w)); simpl.
    + left. rewrite Hcol, Hcon. auto.
    + right. exists MongoServerError. rewrite Hcol, Hcon. auto.
  - right. exists e. rewrite Hcol, Hcon. auto.
Qed.

Lemma insert_event_client (doc : EventDoc) (w : World) :
  let w' := snd (try_catch (insert_event env doc) POST_catch w) in
  cachedClient w' = cachedClient (snd (getClient env w))
  /\ clients w' = clients (snd (getClient env w))
  /\ connects w' = connects (snd (getClient env w))
  /\ connected w' = connected (snd (getClient env w)).
Proof.
  unfold try_catch, insert_event, bind.
  destruct (getClient env w) as [[c | e] w1]; simpl; [| auto].
  unfold insertOne. destruct (store_ok env (operations w1)); simpl; auto.
Qed.

(** Every run of [POST], with the record it builds. *)
Lemma POST_cases (request : option (json number)) (w : World) :
  POST env request w = ({| status := 400; body := TitreRequired |}, w)
  \/ (exists e, POST env request w = POST_catch e w)
  \/ (exists doc n,
        POST env request w
        = try_catch (insert_event env doc) POST_catch (set_clock_reads n w)
        /\ valid_record doc
        /\ (clock_reads w < n)%nat
        /\ receivedAt doc = clock env (pred n)).
Proof.
  destruct request as [data |]; [| right; left; exists SyntaxError; reflexivity].
  destruct data as [| b | x | s | items | members];
    try (left; reflexivity);
    try (right; left; exists TypeError; reflexivity).
  destruct (negb (truthy (assoc "titre" members))
            || negb (typeof (assoc "titre" members) =? "string")%string) eqn:Hg.
  - left. unfold POST, try_catch, bind, request_json, destructure, ret. simpl.
    rewrite Hg. reflexivity.
  - right. right.
    destruct (assoc "titre" members) as [[| b | x | s | items | ms] |] eqn:Ht;
      simpl in Hg; rewrite ?orb_true_r in Hg; try discriminate.
    assert (Hs : s <> "") by (intros ->; discriminate).
    rewrite (POST_valid env members w s Ht Hs).
    set (dv := assoc "date" members).
    set (rv := assoc "recommendation" members).
    set (iv := assoc "ip_source" members).
    set (w1 := if truthy dv then w else set_clock_reads (S (clock_reads w)) w).
    assert (Hw1 : (clock_reads w <= clock_reads w1)%nat)
      by (subst w1; destruct (truthy dv); simpl; lia).
    assert (Hsame : set_clock_reads (S (clock_reads w1)) w1
                    = set_clock_reads (S (clock_reads w1)) w)
      by (subst w1; destruct (truthy dv); reflexivity).
    rewrite Hsame.
    eexists. exists (S (clock_reads w1)).
    split; [reflexivity |]. split; [| split; [lia | reflexivity]].
    split; [exists s; simpl; auto |]. simpl.
    split; [destruct (truthy rv) eqn:E | destruct (truthy iv) eqn:E]; auto.
Qed.

(** The three ways a run of [POST] can end. *)
Lemma POST_effect (request : option (json number)) (w : World) :
  let r := POST env request w in
  r = ({| status := 400; body := TitreRequired |}, w)
  \/ (exists e,
        fst r = {| status := 500; body := Failed e |}
        /\ collection (snd r) = collection w
        /\ console (snd r) = console w ++ [e]
        /\ (clock_reads w <= clock_reads (snd r))%nat)
  \/ (exists doc,
        fst r = {| status := 200; body := Inserted (operations w) |}
        /\ collection (snd r) = collection w ++ [(operations w, doc)]
        /\ console (snd r) = console w
        /\ valid_record doc
        /\ (clock_reads w < clock_reads (snd r))%nat
        /\ receivedAt doc = clock env (pred (clock_reads (snd r)))).
Proof.
  intros r. subst r.
  destruct (POST_cases request w) as [Hp | [[e Hp] | (doc & n & Hp & Hv & Hn & Hr)]];
    rewrite Hp.
  - left. reflexivity.
  - right. left. exists e. simpl. auto.
  - right.
    pose proof (insert_event_clock env doc (set_clock_reads n w)) as Hk.
    simpl in Hk.
    destruct (insert_event_effect doc (set_clock_reads n w))
      as [(Hf & Hc & Hl) | (e & Hf & Hc & Hl)].
    + right. exists doc. rewrite Hf, Hc, Hl, Hk. simpl.
      repeat match goal with |- _ /\ _ => split end; auto.
    + left. exists e. rewrite Hf, Hc, Hl, Hk. simpl.
      repeat match goal with |- _ /\ _ => split end; auto. lia.
Qed.

Lemma GET_effect (w : World) :
  let w' := snd (GET env w) in
  collection w' = collection w /\ console w' = console w
  /\ clock_reads w' = clock_reads w.
Proof.
  unfold GET, try_catch, bind.
  pose proof (getClient_frame env w) as (Hcol & _ & Hk & Hcon).
  destruct (getClient env w) as [[c | e] w1]; simpl in *; [| auto].
  unfold find_sort_limit. destruct (store_ok env (operations w1)); simpl; auto.
Qed.

(** X1. [POST] answers 200 exactly when it appended one record, and then the
    answer carries the identifier of that record; with any other answer
    the collection is what it was. It answers 200, 400 or 500, and writes
    to the console exactly when it answers 500. *)
Theorem POST_answer_matches_store (request : option (json number)) (w : World) :
  let r := POST env request w in
  (status (fst r) = 200 \/ status (fst r) = 400 \/ status (fst r) = 500)
  /\ (status (fst r) = 200 <->
      exists doc, collection (snd r) = collection w ++ [(operations w, doc)])
  /\ (status (fst r) = 200 -> body (fst r) = Inserted (operations w))
  /\ (status (fst r) <> 200 -> collection (snd r) = collection w)
  /\ (status (fst r) = 500 <-> exists e, console (snd r) = console w ++ [e])
  /\ (status (fst r) <> 500 -> console (snd r) = console w).
Proof.
  intros r. subst r.
  destruct (POST_effect request w)
    as [Hp | [(e & Hf & Hc & Hl & _) | (doc & Hf & Hc & Hl & _)]];
    [rewrite Hp | rewrite Hf, Hc, Hl | rewrite Hf, Hc, Hl]; simpl;
    repeat match goal with
           | |- _ /\ _ => split
           | |- _ <-> _ => split
           end;
    intros;
    try solve [ tauto | discriminate | reflexivity | eauto
              | contradiction
              | match goal with
                | Hx : exists _, _ |- _ =>
                    destruct Hx as [? Hx]; symmetry in Hx;
                    apply app_one_neq in Hx; contradiction
                end ].
Qed.

(** What one request adds to the collection. *)
Lemma handle_collection (r : Request) (w : World) :
  let w' := snd (handle env r w) in
  (collection w' = collection w
   \/ exists doc,
        collection w' = collection w ++ [(operations w, doc)]
        /\ valid_record doc
        /\ (clock_reads w < clock_reads w')%nat
        /\ receivedAt doc = clock env (pred (clock_reads w')))
  /\ (clock_reads w <= clock_reads w')%nat.
Proof.
  destruct r as [request |]; simpl.
  - destruct (POST_effect request w)
      as [Hp | [(e & _ & Hc & _ & Hk) | (doc & _ & Hc & _ & Hv & Hk & Hr)]].
    + rewrite Hp. simpl. auto.
    + auto.
    + split; [right; exists doc; auto | lia].
  - destruct (GET_effect w) as (Hc & _ & Hk). split; [left; exact Hc | lia].
Qed.

(** X2. The collection is append-only: whatever requests are served, the
    documents that were there stay, in place and unchanged, and at most
    one document per request is added behind them. *)
Theorem serve_append_only (rs : list Request) (w : World) :
  exists added,
    collection (serve env rs w) = collection w ++ added
    /\ (List.length added <= List.length rs)%nat.
Proof.
  revert w. induction rs as [| r rs IH]; intros w; simpl.
  - exists []. rewrite app_nil_r. split; [reflexivity | simpl; lia].
  - destruct (IH (snd (handle env r w))) as (added & Ha & Hl).
    unfold serve in *. rewrite Ha.
    destruct (handle_collection r w) as [[Hc | (doc & Hc & _)] _]; rewrite Hc.
    + exists added. split; [reflexivity | lia].
    + exists ((operations w, doc) :: added). rewrite <- app_assoc.
      split; [reflexivity | simpl; lia].
Qed.

(** X3. Every record the route stores has a non-empty string as title and
    optional fields that are absent or truthy: a collection of such
    records stays one, whatever requests are served. *)
Theorem serve_keeps_records_valid (rs : list Request) (w : World) :
  Forall (fun d => valid_record (snd d)) (collection w) ->
  Forall (fun d => valid_record (snd d)) (collection (serve env rs w)).
Proof.
  revert w. induction rs as [| r rs IH]; intros w Hw; simpl; [exact Hw |].
  apply IH.
  destruct (handle_collection r w) as [[Hc | (doc & Hc & Hv & _)] _]; rewrite Hc.
  - exact Hw.
  - apply Forall_app. split; [exact Hw | constructor; [exact Hv | constructor]].
Qed.

(** What one request does to the cache and the counters. *)
Lemma handle_client_step (r : Request) (w : World) :
  let w' := snd (handle env r w) in
  (cachedClient w' = cachedClient w /\ clients w' = clients w
   /\ connects w' = connects w)
  \/ (cachedClient w = None /\ uri_ok env = true
      /\ cachedClient w' = Some (clients w)
      /\ clients w' = S (clients w) /\ connects w' = S (connects w)).
Proof.
  assert (Hget : forall w0,
             let w' := snd (getClient env w0) in
             (cachedClient w' = cachedClient w0 /\ clients w' = clients w0
              /\ connects w' = connects w0)
             \/ (cachedClient w0 = None /\ uri_ok env = true
                 /\ cachedClient w' = Some (clients w0)
                 /\ clients w' = S (clients w0) /\ connects w' = S (connects w0))).
  { intros w0. destruct (getClient_step w0) as [(A & B & C & _) | Hr]; auto. }
  destruct r as [request |]; simpl.
  - destruct (POST_cases request w) as [Hp | [[e Hp] | (doc & n & Hp & _)]];
      rewrite Hp; simpl; auto.
    destruct (insert_event_client doc (set_clock_reads n w)) as (A & B & C & _).
    rewrite A, B, C. apply (Hget (set_clock_reads n w)).
  - unfold GET, try_catch, bind. specialize (Hget w). simpl in Hget.
    destruct (getClient env w) as [[c | e] w1]; simpl in *; [| exact Hget].
    unfold find_sort_limit. destruct (store_ok env (operations w1)); exact Hget.
Qed.

(** X4. Over the life of a process at most one client is constructed and
    [connect] is called at most once, whatever requests are served and
    whether or not that call succeeds; once a client is cached neither
    happens again. *)
Theorem serve_connects_at_most_once (rs : list Request) (w : World) :
  let w' := serve env rs w in
  (clients w' <= S (clients w))%nat
  /\ (connects w' <= S (connects w))%nat
  /\ (cachedClient w <> None ->
      clients w' = clients w /\ connects w' = connects w
      /\ cachedClient w' = cachedClient w).
Proof.
  assert (Hfrozen : forall rs w, cachedClient w <> None ->
             clients (serve env rs w) = clients w
             /\ connects (serve env rs w) = connects w
             /\ cachedClient (serve env rs w) = cachedClient w).
  { intros rs0 w0 Hc. destruct (cachedClient w0) as [c |] eqn:E; [| congruence].
    destruct (serve_keeps_client env rs0 w0 c E) as (A & B & C & _). auto. }
  revert w. induction rs as [| r rs IH]; intros w; simpl.
  - repeat split; auto.
  - split; [| split]; [| | apply (Hfrozen (r :: rs) w)].
    + destruct (handle_client_step r w) as [(A & B & C) | (A & _ & B & C & D)].
      * destruct (IH (snd (handle env r w))) as (I1 & _). unfold serve in *. lia.
      * destruct (Hfrozen rs (snd (handle env r w))) as (F1 & _);
          [rewrite B; discriminate |]. unfold serve in *. lia.
    + destruct (handle_client_step r w) as [(A & B & C) | (A & _ & B & C & D)].
      * destruct (IH (snd (handle env r w))) as (_ & I2 & _). unfold serve in *. lia.
      * destruct (Hfrozen rs (snd (handle env r w))) as (_ & F2 & _);
          [rewrite B; discriminate |]. unfold serve in *. lia.
Qed.






(** X7. With a malformed connection string [new MongoClient] throws before
    anything is cached: every request tries again and fails again. No
    request is answered with 200, nothing is stored, no client is
    constructed and [connect] is never called. *)
Theorem serve_with_malformed_uri (rs : list Request) (w : World) :
  uri_ok env = false ->
  cachedClient w = None ->
  let w' := serve env rs w in
  cachedClient w' = None
  /\ collection w' = collection w
  /\ clients w' = clients w
  /\ connects w' = connects w
  /\ forall r, status (fst (handle env r w')) <> 200.
Proof.
  intros Hu.
  assert (Hunreach : forall w0, cachedClient w0 = None -> ~ store_reachable env w0).
  { intros w0 Hc [[Hf | [Hf _]] _]; congruence. }
  assert (Hstep : forall r w0, cachedClient w0 = None ->
             cachedClient (snd (handle env r w0)) = None
             /\ collection (snd (handle env r w0)) = collection w0
             /\ clients (snd (handle env r w0)) = clients w0
             /\ connects (snd (handle env r w0)) = connects w0
             /\ status (fst (handle env r w0)) <> 200).
  { intros r w0 Hc.
    destruct (handle_client_step r w0) as [(A & B & C) | (_ & Hf & _)];
      [| congruence].
    rewrite A, B, C. repeat split; auto.
    - destruct r as [request |]; simpl.
      + destruct (POST_cases request w0) as [Hp | [[e Hp] | (doc & n & Hp & _)]];
          rewrite Hp; simpl; auto.
        destruct (insert_event_outcome env doc (set_clock_reads n w0))
          as [(Hr & _) | (_ & _ & Hcol)]; [| exact Hcol].
        exfalso. apply (Hunreach (set_clock_reads n w0)); [exact Hc | exact Hr].
      + apply GET_effect.
    - destruct r as [request |]; simpl.
      + destruct (POST_cases request w0) as [Hp | [[e Hp] | (doc & n & Hp & _)]];
          rewrite Hp; simpl; try discriminate.
        destruct (insert_event_outcome env doc (set_clock_reads n w0))
          as [(Hr & _) | (_ & [e He] & _)]; [| rewrite He; discriminate].
        exfalso. apply (Hunreach (set_clock_reads n w0)); [exact Hc | exact Hr].
      + destruct (GET_outcome env w0) as [(Hr & _) | (_ & [e He])];
          [| rewrite He; discriminate].
        exfalso. apply (Hunreach w0); assumption. }
  revert w. induction rs as [| r rs IH]; intros w Hc; simpl.
  - repeat split; auto. intros r. apply Hstep. exact Hc.
  - destruct (Hstep r w Hc) as (A & B & C & D & _).
    destruct (IH _ A) as (I1 & I2 & I3 & I4 & I5). unfold serve in *.
    rewrite I2, I3, I4. repeat split; auto.
Qed.






(** X9. [GET] only reads: it leaves the collection and the console as they
    are and does not read the clock, whether it answers 200 or 500, and
    it answers nothing else. *)
Theorem GET_read_only (w : World) :
  collection (snd (GET env w)) = collection w
  /\ console (snd (GET env w)) = console w
  /\ clock_reads (snd (GET env w)) = clock_reads w
  /\ (status (fst (GET env w)) = 200 \/ status (fst (GET env w)) = 500).
Proof.
  destruct (GET_effect w) as (Hc & Hl & Hk).
  repeat split; try assumption.
  destruct (GET_outcome env w) as [(_ & Hg) | (_ & e & Hg)]; rewrite Hg;
    [left | right]; reflexivity.
Qed.

(** X10. Bodies that are not objects. A body that is not JSON and the body
    [null] make the route throw before it validates anything: the answer
    is 500 and the exception is written to the console. Any other value
    that is not an object has no title: the answer is 400. In all these
    cases the collection and the cached client are left as they are. *)
Theorem POST_non_object_body (w : World) :
  POST env None w
  = ({| status := 500; body := Failed SyntaxError |}, console_error SyntaxError w)
  /\ POST env (Some JNull) w
     = ({| status := 500; body := Failed TypeError |}, console_error TypeError w)
  /\ (forall data,
        data <> JNull -> (forall members, data <> JObject members) ->
        POST env (Some data) w = ({| status := 400; body := TitreRequired |}, w))
  /\ (forall request,
        (forall members, request <> Some (JObject members)) ->
        collection (snd (POST env request w)) = collection w
        /\ cachedClient (snd (POST env request w)) = cachedClient w).
Proof.
  split; [reflexivity |]. split; [reflexivity |]. split.
  - intros data Hn Ho. apply (POST_not_an_object env data w Hn Ho).
  - intros request Ho. destruct request as [data |]; [| split; reflexivity].
    destruct data as [| b | n | s | items | members]; try (split; reflexivity).
    exfalso. apply (Ho members). reflexivity.
Qed.

End Route.

#[local] Existing Instance Engine.host.

Lemma serve_keeps_records_valid_witness :
  let rs := [ReqPOST (Some (JObject [("titre", JString "Port Scan");
                                      ("recommendation", JString "")]));
             ReqGET;
             ReqPOST (Some (JObject [("titre", JString "")]))] in
  Forall (fun d => valid_record (snd d)) (collection Engine.fresh_world)
  /\ Forall (fun d => valid_record (snd d))
       (collection (serve Engine.env_up rs Engine.fresh_world))
  /\ List.length (collection (serve Engine.env_up rs Engine.fresh_world)) = 1%nat.
Proof.
  intros rs.
  assert (H0 : Forall (fun d => valid_record (snd d)) (collection Engine.fresh_world))
    by constructor.
  split; [exact H0 |]. split; [| reflexivity].
  apply (serve_keeps_records_valid Engine.env_up rs Engine.fresh_world H0).
Defined.



Lemma serve_with_malformed_uri_witness :
  let rs := [ReqPOST (Some (JObject [("titre", JString "Port Scan")])); ReqGET] in
  collection (serve Engine.env_no_uri rs Engine.fresh_world) = []
  /\ connects (serve Engine.env_no_uri rs Engine.fresh_world) = 0%nat
  /\ status (fst (handle Engine.env_no_uri ReqGET
                    (serve Engine.env_no_uri rs Engine.fresh_world))) <> 200.
Proof.
  intros rs.
  destruct (serve_with_malformed_uri Engine.env_no_uri rs Engine.fresh_world
              eq_refl eq_refl) as (_ & Hc & _ & Hk & Hs).
  split; [exact Hc |]. split; [exact Hk | apply Hs].
Defined.


Lemma serve_connects_at_most_once_witness :
  let rs := [ReqGET; ReqPOST (Some (JObject [("titre", JString "Port Scan")]));
             ReqGET] in
  (connects (serve Engine.env_down rs Engine.fresh_world) <= 1)%nat
  /\ (clients (serve Engine.env_down rs Engine.fresh_world) <= 1)%nat.
Proof.
  intros rs.
  destruct (serve_connects_at_most_once Engine.env_down rs Engine.fresh_world)
    as (Hc & Hk & _).
  split; [exact Hk | exact Hc].
Defined.

End WebhookInvariants.

(** ** Further properties of the dashboard aggregation *)

Module DashboardInvariants.
Import JS Dashboard DashboardFacts.

Section Page.
Context `{Host}.
Variable clock : nat -> Z.

(** [computeTimeSeries] in terms of the bucket keys of the window. *)
Lemma computeTimeSeries_run (group : TimeGrouping) (events : list EventData)
  (n : nat) :
  computeTimeSeries clock events group n
  = match bucket_keys clock group events n with
    | (Ok keys, n') =>
        let d := fold_left increment keys [] in
        let labels := sort_by String.compare (Object_keys d) in
        (Ok (labels, map (fun l => prop_get d l) labels), n')
    | (Throw e, n') => (Throw e, n')
    end.
Proof.
  unfold computeTimeSeries. rewrite bind_run, forEach_bucket_keys.
  destruct (bucket_keys clock group events n) as [[keys | e] n']; reflexivity.
Qed.

(** The bucket key of an event with a time string: the clock is not
    read, and the only failure is a string that does not parse. *)
Lemma bucket_key_timed (group : TimeGrouping) (ev : EventData) (s : string)
  (n : nat) :
  time_string ev = Some s ->
  bucket_key clock group ev n
  = (match timed_key group ev with
     | Some k => Ok k
     | None => Throw RangeError
     end, n).
Proof.
  intros Hs. unfold timed_key. rewrite Hs.
  assert (Hraw : raw_of clock ev n = (Ok (RawString s), n)).
  { unfold raw_of. unfold time_string in Hs.
    destruct (str_truthy (Some (date ev))).
    - injection Hs as <-. reflexivity.
    - destruct (receivedAt ev) as [r |]; [| discriminate].
      destruct (str_truthy (Some r)); [| discriminate].
      injection Hs as <-. reflexivity. }
  unfold bucket_key. rewrite bind_run, Hraw. simpl.
  destruct (Date_parse s) as [t |]; simpl; [| reflexivity].
  destruct group; reflexivity.
Qed.

Lemma bucket_key_unparsable (group : TimeGrouping) (ev : EventData) (n : nat) :
  ~ (forall s, time_string ev = Some s -> Date_parse s <> None) ->
  bucket_key clock group ev n = (Throw RangeError, n).
Proof.
  intros Hn. destruct (time_string ev) as [s |] eqn:Hs.
  - rewrite (bucket_key_timed group ev s n Hs). unfold timed_key. rewrite Hs.
    destruct (Date_parse s) eqn:Hp; [| reflexivity].
    exfalso. apply Hn. intros s' [= <-]. rewrite Hp. discriminate.
  - exfalso. apply Hn. intros s' Hs'. discriminate.
Qed.

Lemma parses_dec (ev : EventData) :
  (forall s, time_string ev = Some s -> Date_parse s <> None)
  \/ ~ (forall s, time_string ev = Some s -> Date_parse s <> None).
Proof.
  destruct (time_string ev) as [s |].
  - destruct (Date_parse s) eqn:Hp.
    + left. intros s' [= <-]. rewrite Hp. discriminate.
    + right. intros Hf. apply (Hf s eq_refl). exact Hp.
  - left. intros s' Hs'. discriminate.
Qed.

Lemma bucket_keys_cases (group : TimeGrouping) (events : list EventData) (n : nat) :
  (well_formed events
   /\ exists keys n', bucket_keys clock group events n = (Ok keys, n'))
  \/ (~ well_formed events
      /\ exists n', bucket_keys clock group events n = (Throw RangeError, n')).
Proof.
  revert n. induction events as [| ev events IH]; intros n.
  - left. split; [constructor | exists [], n; reflexivity].
  - destruct (parses_dec ev) as [Hp | Hp].
    + destruct (bucket_key_ok clock group ev n Hp) as (k & n1 & Hk & _).
      destruct (IH n1) as [(Hw & ks & n2 & Hks) | (Hw & n2 & Hks)].
      * left. split; [constructor; assumption |].
        exists (k :: ks), n2. cbn [bucket_keys]. rewrite bind_run, Hk.
        cbv beta iota. rewrite bind_run, Hks. reflexivity.
      * right. split; [intros Hf; inversion Hf; contradiction |].
        exists n2. cbn [bucket_keys]. rewrite bind_run, Hk.
        cbv beta iota. rewrite bind_run, Hks. reflexivity.
    + right. split; [intros Hf; inversion Hf; contradiction |].
      exists n. cbn [bucket_keys].
      rewrite bind_run, (bucket_key_unparsable group ev n Hp). reflexivity.
Qed.

(** X11. [computeTimeSeries] fails in one way only: it throws the
    [RangeError] of [toISOString] exactly when the time string of some
    event of the window does not parse, and it returns exactly when all
    of them parse. *)
Theorem computeTimeSeries_fails_exactly (group : TimeGrouping)
  (events : list EventData) (n : nat) :
  (well_formed events <->
   exists out n', computeTimeSeries clock events group n = (Ok out, n'))
  /\ (~ well_formed events <->
      exists n', computeTimeSeries clock events group n = (Throw RangeError, n')).
Proof.
  rewrite computeTimeSeries_run.
  destruct (bucket_keys_cases group events n)
    as [(Hw & ks & n' & Hk) | (Hw & n' & Hk)]; rewrite Hk; simpl.
  - split; split.
    + intros _. eauto.
    + intros _. exact Hw.
    + intros Hn. contradiction.
    + intros [n0 Hf]. discriminate.
  - split; split.
    + intros Hf. contradiction.
    + intros (out & n0 & Hf). discriminate.
    + intros _. eauto.
    + intros _. exact Hw.
Qed.

Lemma bucket_keys_timed (group : TimeGrouping) (events : list EventData) (n : nat) :
  Forall (fun ev => time_string ev <> None) events ->
  bucket_keys clock group events n
  = (match timed_keys group events with
     | Some ks => Ok ks
     | None => Throw RangeError
     end, n).
Proof.
  induction events as [| ev events IH]; intros Ht; [reflexivity |].
  inversion Ht as [| ? ? Hev Hevs]; subst.
  destruct (time_string ev) as [s |] eqn:Hs; [| contradiction].
  cbn [bucket_keys timed_keys].
  rewrite bind_run, (bucket_key_timed group ev s n Hs).
  destruct (timed_key group ev) as [k |]; [| reflexivity].
  cbv beta iota. rewrite bind_run, (IH Hevs).
  destruct (timed_keys group events); reflexivity.
Qed.

Lemma timed_keys_perm (group : TimeGrouping) (events events' : list EventData) :
  Permutation events events' ->
  match timed_keys group events, timed_keys group events' with
  | Some ks, Some ks' => Permutation ks ks'
  | None, None => True
  | _, _ => False
  end.
Proof.
  induction 1 as [| x l l' Hp IH | x y l | l l' l'' Hp1 IH1 Hp2 IH2].
  - simpl. constructor.
  - cbn [timed_keys]. destruct (timed_key group x);
      destruct (timed_keys group l), (timed_keys group l'); try tauto.
    constructor. exact IH.
  - cbn [timed_keys]. destruct (timed_key group x), (timed_key group y),
      (timed_keys group l); try tauto. apply perm_swap.
  - destruct (timed_keys group l), (timed_keys group l'), (timed_keys group l'');
      try tauto. eapply perm_trans; eassumption.
Qed.

Lemma timed_keys_clean (group : TimeGrouping) (events : list EventData)
  (ks : list string) :
  timed_keys group events = Some ks ->
  Forall (fun k => is_proto_name k = false) ks.
Proof.
  revert ks. induction events as [| ev events IH]; intros ks; cbn [timed_keys].
  - intros [= <-]. constructor.
  - destruct (timed_key group ev) as [k |] eqn:Hk; [| discriminate].
    destruct (timed_keys group events) as [ks0 |]; [| discriminate].
    intros [= <-]. constructor; [| apply IH; reflexivity].
    unfold timed_key in Hk. destruct (time_string ev); [| discriminate].
    destruct (Date_parse s); [| discriminate].
    injection Hk as <-. destruct group; apply iso_key_clean.
Qed.

Lemma string_lt_irrefl (a : string) : ~ string_lt a a.
Proof.
  unfold string_lt. intros Hlt. pose proof (String.compare_antisym a a) as Ha.
  rewrite Hlt in Ha. discriminate.
Qed.

Lemma string_lt_asym (a b : string) : string_lt a b -> ~ string_lt b a.
Proof.
  unfold string_lt. intros Hab Hba. rewrite String.compare_antisym, Hab in Hba.
  discriminate.
Qed.

(** Two strictly ascending lists with the same elements are equal. *)
Lemma sorted_unique (l l' : list string) :
  StronglySorted string_lt l -> StronglySorted string_lt l' ->
  (forall k, In k l <-> In k l') -> l = l'.
Proof.
  revert l'. induction l as [| x l IH]; intros l' Hs Hs' Hsame.
  - destruct l' as [| y l']; [reflexivity |].
    exfalso. apply (Hsame y). left. reflexivity.
  - destruct l' as [| y l'].
    + exfalso. apply (Hsame x). left. reflexivity.
    + inversion Hs as [| ? ? Hl Hx]; subst. inversion Hs' as [| ? ? Hl' Hy]; subst.
      rewrite Forall_forall in Hx, Hy.
      assert (Hxy : x = y).
      { destruct (string_dec x y) as [Heq | Hne]; [exact Heq |].
        assert (Hx' : In x l').
        { destruct (proj1 (Hsame x) (or_introl eq_refl)) as [He | Hi];
            [congruence | exact Hi]. }
        assert (Hy' : In y l).
        { destruct (proj2 (Hsame y) (or_introl eq_refl)) as [He | Hi];
            [congruence | exact Hi]. }
        exfalso. apply (string_lt_asym x y); [apply Hx, Hy' | apply Hy, Hx']. }
      subst y. f_equal. apply IH; [exact Hl | exact Hl' |].
      intros k. split; intros Hk.
      * destruct (proj1 (Hsame k) (or_intror Hk)) as [He | Hi]; [| exact Hi].
        subst k. exfalso. apply (string_lt_irrefl x), Hx, Hk.
      * destruct (proj2 (Hsame k) (or_intror Hk)) as [He | Hi]; [| exact Hi].
        subst k. exfalso. apply (string_lt_irrefl x), Hy, Hk.
Qed.

Lemma occurrences_perm (k : string) (ks ks' : list string) :
  Permutation ks ks' -> occurrences k ks = occurrences k ks'.
Proof.
  intros Hp. unfold occurrences. f_equal.
  apply (Permutation_count_occ string_dec). exact Hp.
Qed.

(** The series of two tallies of the same keys, in any order. *)
Lemma series_perm (ks ks' : list string) :
  Forall (fun k => is_proto_name k = false) ks ->
  Permutation ks ks' ->
  let d := fold_left increment ks [] in
  let d' := fold_left increment ks' [] in
  sort_by String.compare (Object_keys d) = sort_by String.compare (Object_keys d')
  /\ map (fun l => prop_get d l) (sort_by String.compare (Object_keys d))
     = map (fun l => prop_get d' l) (sort_by String.compare (Object_keys d')).
Proof.
  intros Hc Hp d d'.
  assert (Hc' : Forall (fun k => is_proto_name k = false) ks')
    by (apply (Permutation_Forall Hp); exact Hc).
  pose proof (fold_increment_tallies ks [] [] Hc tallies_nil) as Ht.
  pose proof (fold_increment_tallies ks' [] [] Hc' tallies_nil) as Ht'.
  simpl in Ht, Ht'. fold d in Ht. fold d' in Ht'.
  destruct (tallied_output d ks String.compare Ht) as (Hnd & Hin & Hdata & _).
  destruct (tallied_output d' ks' String.compare Ht') as (Hnd' & Hin' & Hdata' & _).
  assert (Hl : sort_by String.compare (Object_keys d)
               = sort_by String.compare (Object_keys d')).
  { apply sorted_unique.
    - apply sorted_strings_strict; [exact Hnd |].
      apply sort_by_sorted. exact string_compare_asym.
    - apply sorted_strings_strict; [exact Hnd' |].
      apply sort_by_sorted. exact string_compare_asym.
    - intros k. rewrite Hin, Hin'. split; apply Permutation_in;
        [exact Hp | symmetry; exact Hp]. }
  split; [exact Hl |].
  rewrite Hdata, Hdata', <- Hl. apply map_ext.
  intros l. unfold count. rewrite (occurrences_perm l ks ks' Hp). reflexivity.
Qed.

(** X12. When every event of the window carries a time string, what
    [computeTimeSeries] returns does not depend on the order of the
    events: two windows with the same events give the same labels and
    counts, or fail alike. *)
Theorem computeTimeSeries_order_insensitive (group : TimeGrouping)
  (events events' : list EventData) (n : nat) :
  Forall (fun ev => time_string ev <> None) events ->
  Permutation events events' ->
  computeTimeSeries clock events group n = computeTimeSeries clock events' group n.
Proof.
  intros Ht Hp.
  assert (Ht' : Forall (fun ev => time_string ev <> None) events')
    by (apply (Permutation_Forall Hp); exact Ht).
  rewrite !computeTimeSeries_run.
  rewrite (bucket_keys_timed group events n Ht).
  rewrite (bucket_keys_timed group events' n Ht').
  pose proof (timed_keys_perm group events events' Hp) as Hk.
  destruct (timed_keys group events) as [ks |] eqn:E;
    destruct (timed_keys group events') as [ks' |]; try contradiction;
    [| reflexivity].
  destruct (series_perm ks ks' (timed_keys_clean group events ks E) Hk) as [Hl Hd].
  cbv zeta. rewrite Hd, Hl. reflexivity.
Qed.

(** *** The order of labels with equal counts *)

Lemma before_app {A : Type} (a b : A) (l1 l2 : list A) :
  In a l1 -> In b l2 -> before a b (l1 ++ l2).
Proof.
  induction l1 as [| x l1 IH]; intros Ha Hb; [contradiction |]. simpl.
  destruct Ha as [-> | Ha].
  - apply before_here. apply in_or_app. right. exact Hb.
  - apply before_later. apply IH; assumption.
Qed.

Lemma before_app_r {A : Type} (a b : A) (l1 l2 : list A) :
  before a b l2 -> before a b (l1 ++ l2).
Proof.
  intros Hb. induction l1 as [| x l1 IH]; simpl; [exact Hb |].
  apply before_later. exact IH.
Qed.

Lemma before_filter {A : Type} (f : A -> bool) (a b : A) (l : list A) :
  f a = true -> f b = true -> before a b l -> before a b (filter f l).
Proof.
  intros Ha Hb. induction 1 as [l Hin | x l Hbef IH]; simpl.
  - rewrite Ha. apply before_here. apply filter_In. split; assumption.
  - destruct (f x); [apply before_later |]; exact IH.
Qed.

Lemma insert_by_keeps_before {A : Type} (comparefn : A -> A -> comparison)
  (x a b : A) (l : list A) :
  before a b l -> before a b (insert_by comparefn x l).
Proof.
  induction 1 as [l Hin | y l Hbef IH]; simpl.
  - destruct (comparefn x a).
    + apply before_later, before_here. exact Hin.
    + apply before_later, before_here. exact Hin.
    + apply before_here.
      apply (Permutation_in _ (Permutation_sym (insert_by_perm _ comparefn x l))).
      right. exact Hin.
  - destruct (comparefn x y).
    + apply before_later, before_later. exact Hbef.
    + apply before_later, before_later. exact Hbef.
    + apply before_later. exact IH.
Qed.

Lemma insert_by_puts_before {A : Type} (comparefn : A -> A -> comparison)
  (a b : A) (l : list A) :
  In b l -> comparefn a b <> Gt -> before a b (insert_by comparefn a l).
Proof.
  intros Hin Hcmp. induction l as [| y l IH]; [contradiction |]. simpl.
  destruct (comparefn a y) eqn:Hy.
  - apply before_here. exact Hin.
  - apply before_here. exact Hin.
  - apply before_later. apply IH.
    destruct Hin as [-> | Hin]; [contradiction | exact Hin].
Qed.

(** [sort] is stable: it does not move [b] in front of an [a] that came
    first, unless the comparison function asks for it. *)
Lemma sort_by_stable {A : Type} (comparefn : A -> A -> comparison)
  (a b : A) (l : list A) :
  before a b l -> comparefn a b <> Gt -> before a b (sort_by comparefn l).
Proof.
  intros Hbef Hcmp. induction Hbef as [l Hin | x l Hbef IH]; simpl.
  - apply insert_by_puts_before; [| exact Hcmp].
    apply (Permutation_in _ (Permutation_sym (sort_by_perm _ comparefn l))).
    exact Hin.
  - apply insert_by_keeps_before. exact IH.
Qed.

Lemma increment_keys_grow (d : JsObject) (k : string) :
  exists ext, map fst (increment d k) = map fst d ++ ext.
Proof.
  unfold increment, prop_set.
  destruct (assoc k d) as [v |] eqn:Hk.
  - exists []. rewrite (own_set_keys_old d k _ v Hk), app_nil_r. reflexivity.
  - destruct (k =? "__proto__")%string.
    + exists []. rewrite app_nil_r. reflexivity.
    + exists [k]. apply own_set_keys_new. exact Hk.
Qed.

Lemma fold_increment_keys_grow (ks : list string) (d : JsObject) :
  exists ext, map fst (fold_left increment ks d) = map fst d ++ ext.
Proof.
  revert d. induction ks as [| k ks IH]; intros d; simpl.
  - exists []. rewrite app_nil_r. reflexivity.
  - destruct (IH (increment d k)) as [ext Hext].
    destruct (increment_keys_grow d k) as [ext0 Hext0].
    exists (ext0 ++ ext). rewrite Hext, Hext0, app_assoc. reflexivity.
Qed.

(** X13. How [computeTitleBars] orders two titles when the counts do not
    decide: of two titles that are not array indices, the one that
    occurs first in the window comes first among the labels, unless the
    other has the strictly greater count. *)
Theorem computeTitleBars_tie_order (events : list EventData) (a b : string)
  (l1 l2 : list string) :
  Forall (fun ev => is_proto_name (titre ev) = false) events ->
  map titre events = l1 ++ a :: l2 ->
  ~ In b l1 ->
  a <> b ->
  In b l2 ->
  is_index a = false ->
  is_index b = false ->
  occurrences b (map titre events) <= occurrences a (map titre events) ->
  before a b (fst (computeTitleBars events)).
Proof.
  intros Hclean Hsplit Hb1 Hab Hb2 Hia Hib Hocc.
  unfold computeTitleBars. cbn [fst]. rewrite fold_left_titles.
  set (titles := map titre events) in *.
  assert (Hc : Forall (fun k => is_proto_name k = false) titles)
    by (subst titles; apply Forall_map; exact Hclean).
  pose proof (fold_increment_tallies titles [] [] Hc tallies_nil) as Ht.
  simpl in Ht.
  set (d := fold_left increment titles []) in *.
  destruct Ht as (Hnd & Hdom & Hval).
  assert (Hina : In a titles)
    by (rewrite Hsplit; apply in_or_app; right; left; reflexivity).
  assert (Hinb : In b titles)
    by (rewrite Hsplit; apply in_or_app; right; right; exact Hb2).
  apply sort_by_stable.
  - unfold Object_keys. apply before_app_r.
    apply before_filter; [rewrite Hia; reflexivity | rewrite Hib; reflexivity |].
    assert (Hc1 : Forall (fun k => is_proto_name k = false) (l1 ++ [a])).
    { rewrite Hsplit in Hc. apply Forall_app in Hc. destruct Hc as [Hc1 Hc2].
      apply Forall_app. split; [exact Hc1 |]. inversion Hc2; subst.
      constructor; [assumption | constructor]. }
    pose proof (fold_increment_tallies (l1 ++ [a]) [] [] Hc1 tallies_nil)
      as (_ & Hdom1 & _).
    simpl in Hdom1.
    set (d1 := fold_left increment (l1 ++ [a]) []) in *.
    assert (Hd : d = fold_left increment l2 d1).
    { subst d d1. rewrite Hsplit.
      replace (l1 ++ a :: l2) with ((l1 ++ [a]) ++ l2)
        by (rewrite <- app_assoc; reflexivity).
      apply fold_left_app. }
    destruct (fold_increment_keys_grow l2 d1) as [ext Hext].
    rewrite <- Hd in Hext. rewrite Hext.
    apply before_app.
    + apply Hdom1. apply in_or_app. right. left. reflexivity.
    + assert (Hbd : In b (map fst d)) by (apply Hdom; exact Hinb).
      rewrite Hext in Hbd. apply in_app_or in Hbd.
      destruct Hbd as [Hbd | Hbd]; [| exact Hbd].
      apply Hdom1 in Hbd. apply in_app_or in Hbd.
      destruct Hbd as [Hbd | [Hbd | []]]; [contradiction | congruence].
  - unfold prop_get. rewrite (Hval a Hina), (Hval b Hinb). simpl.
    intros Hgt. apply Z.compare_gt_iff in Hgt. lia.
Qed.

Lemma bucket_key_untimed (group : TimeGrouping) (ev : EventData) (n : nat) :
  time_string ev = None ->
  exists key, bucket_key clock group ev n = (Ok key, S n).
Proof.
  intros Hs.
  assert (Hraw : raw_of clock ev n = (Ok (RawNumber (clock n)), S n)).
  { unfold raw_of. unfold time_string in Hs.
    destruct (str_truthy (Some (date ev))); [discriminate |].
    destruct (receivedAt ev) as [r |]; [| reflexivity].
    destruct (str_truthy (Some r)); [discriminate | reflexivity]. }
  unfold bucket_key. rewrite bind_run, Hraw. simpl.
  destruct group; eexists; reflexivity.
Qed.

(** X14. On a well-formed window [computeTimeSeries] calls [Date.now()] once
    for each event that has neither [date] nor [receivedAt], and for no
    other event. *)
Theorem computeTimeSeries_clock_reads (group : TimeGrouping)
  (events : list EventData) (n : nat) :
  well_formed events ->
  exists out,
    computeTimeSeries clock events group n
    = (Ok out,
       (n + List.length (filter (fun ev => negb (has_time ev)) events))%nat).
Proof.
  intros Hwf. rewrite computeTimeSeries_run.
  assert (Hk : exists keys,
             bucket_keys clock group events n
             = (Ok keys,
                (n + List.length (filter (fun ev => negb (has_time ev)) events))%nat)).
  { revert n. induction Hwf as [| ev events Hev Hevs IH]; intros n.
    - exists []. simpl. rewrite Nat.add_0_r. reflexivity.
    - cbn [bucket_keys filter]. unfold has_time at 1.
      destruct (time_string ev) as [s |] eqn:Hs.
      + rewrite bind_run, (bucket_key_timed group ev s n Hs).
        unfold timed_key. rewrite Hs.
        destruct (Date_parse s) as [t |] eqn:Hp;
          [| exfalso; apply (Hev s eq_refl); exact Hp].
        cbv beta iota. destruct (IH n) as [keys Hkeys].
        rewrite bind_run, Hkeys. eexists. reflexivity.
      + destruct (bucket_key_untimed group ev n Hs) as [key Hkey].
        rewrite bind_run, Hkey. cbv beta iota.
        destruct (IH (S n)) as [keys Hkeys].
        rewrite bind_run, Hkeys. cbn [negb List.length].
        rewrite Nat.add_succ_r. eexists. reflexivity. }
  destruct Hk as [keys Hkeys]. rewrite Hkeys. eexists. reflexivity.
Qed.

End Page.

(** X15. The number shown as unique sources is the number of distinct
    non-empty values of [ip_source] in the window: an address counts
    once however often it occurs, and events without an address, or with
    an empty one, count for nothing. *)
Theorem uniqueIPs_counts_distinct (events : list EventData) :
  exists ips : list string,
    NoDup ips
    /\ (forall ip,
          In ip ips <->
          ip <> "" /\ exists ev, In ev events /\ ip_source ev = Some ip)
    /\ uniqueIPs events = List.length ips.
Proof.
  set (l := nodup option_string_dec
              (map ip_source (filter (fun e => str_truthy (ip_source e)) events))).
  assert (Hl : forall o, In o l <->
             exists ev, In ev events /\ str_truthy (ip_source ev) = true
                        /\ ip_source ev = o).
  { intros o. subst l. rewrite nodup_In, in_map_iff. split.
    - intros (ev & Heq & Hin). apply filter_In in Hin. destruct Hin as [Hin Ht].
      exists ev. auto.
    - intros (ev & Hin & Ht & Heq). exists ev. split; [exact Heq |].
      apply filter_In. auto. }
  set (f := fun o : option string => match o with Some s => s | None => "" end).
  exists (map f l). split; [| split].
  - apply NoDup_map_NoDup_ForallPairs; [| apply NoDup_nodup].
    intros x y Hx Hy Hxy. apply Hl in Hx, Hy.
    destruct Hx as (ex & _ & Htx & <-). destruct Hy as (ey & _ & Hty & <-).
    destruct (ip_source ex), (ip_source ey); try discriminate.
    simpl in Hxy. congruence.
  - intros ip. rewrite in_map_iff. split.
    + intros (o & Hf & Ho). apply Hl in Ho. destruct Ho as (ev & Hin & Ht & <-).
      destruct (ip_source ev) as [s |] eqn:Hs; [| discriminate].
      simpl in Hf, Ht. subst s. split.
      * intros ->. discriminate.
      * exists ev. auto.
    + intros (Hne & ev & Hin & Hs). exists (Some ip). split; [reflexivity |].
      apply Hl. exists ev. rewrite Hs. simpl.
      destruct (String.eqb_spec ip ""); [contradiction | auto].
  - unfold uniqueIPs. fold l. rewrite length_map. reflexivity.
Qed.

#[local] Existing Instance Engine.host.

Lemma computeTimeSeries_order_insensitive_witness :
  let e1 := Engine.event "Port Scan" "2024-01-02T09:00:00.000Z" in
  let e2 := Engine.event "Brute Force" "2024-01-01T10:00:00.000Z" in
  Permutation [e1; e2] [e2; e1]
  /\ computeTimeSeries (fun _ => 0) [e1; e2] heure 0%nat
     = computeTimeSeries (fun _ => 0) [e2; e1] heure 0%nat.
Proof.
  intros e1 e2. split; [apply perm_swap |].
  apply (computeTimeSeries_order_insensitive (fun _ => 0) heure [e1; e2] [e2; e1]).
  - repeat constructor; discriminate.
  - apply perm_swap.
Defined.

Lemma computeTimeSeries_clock_reads_witness :
  let events :=
    [Engine.event "Port Scan" ""; Engine.event "Port Scan" "2024-01-01T10:00:00.000Z";
     Engine.event "Brute Force" ""] in
  well_formed events
  /\ exists out,
       computeTimeSeries (fun k => 1704103200000 + Z.of_nat k) events jour 5%nat
       = (Ok out, 7%nat).
Proof.
  intros events.
  assert (Hwf : well_formed events).
  { repeat constructor; intros s Hs; vm_compute in Hs; try discriminate;
      injection Hs as <-; vm_compute; discriminate. }
  split; [exact Hwf |].
  exact (computeTimeSeries_clock_reads (fun k => 1704103200000 + Z.of_nat k)
           jour events 5%nat Hwf).
Defined.

Lemma computeTitleBars_tie_order_witness :
  before "Port Scan" "Brute Force"
    (fst (computeTitleBars
            [Engine.event "Port Scan" ""; Engine.event "Brute Force" ""])).
Proof.
  apply (computeTitleBars_tie_order
           [Engine.event "Port Scan" ""; Engine.event "Brute Force" ""]
           "Port Scan" "Brute Force" [] ["Brute Force"]).
  - repeat constructor.
  - reflexivity.
  - intros [].
  - discriminate.
  - left. reflexivity.
  - reflexivity.
  - reflexivity.
  - vm_compute. discriminate.
Defined.

(** Of two titles with the same count, an array index comes first
    whatever the order of the events. *)
Example computeTitleBars_index_first :
  computeTitleBars [Engine.event "Port Scan" ""; Engine.event "443" ""]
  = (["443"; "Port Scan"], [count 1; count 1]).
Proof. reflexivity. Qed.

End DashboardInvariants.

(** ** Properties of the model page *)

Module ModeleIAFacts.
Import JS Dashboard ModeleIA DashboardFacts.

(** *** The decimal form of an integer *)

Lemma digit_char_value (n : Z) :
  is_digit (digit_char n) = true
  /\ (N_of_ascii (digit_char n) - 48 = Z.to_N (n mod 10))%N.
Proof.
  unfold digit_char, is_digit.
  pose proof (Z.mod_pos_bound n 10 ltac:(lia)) as Hb.
  rewrite N_ascii_embedding by lia.
  split; [| lia].
  apply andb_true_iff. split; apply N.leb_le; lia.
Qed.

Lemma decimal_digits_value (fuel : nat) (n : Z) (acc : string) :
  0 <= n < 10 ^ Z.of_nat fuel ->
  digits_value (Engine.decimal_digits fuel n acc) 0
  = digits_value acc (Z.to_N n).
Proof.
  revert n acc. induction fuel as [| fuel IH]; intros n acc Hn.
  - simpl in *. replace n with 0 by lia. reflexivity.
  - cbn [Engine.decimal_digits].
    destruct (digit_char_value n) as [Hd Hv].
    destruct (Z.ltb_spec n 10) as [Hlt | Hge].
    + cbn [digits_value]. rewrite Hd, Hv. f_equal.
      rewrite Z.mod_small by lia. lia.
    + rewrite IH.
      * cbn [digits_value]. rewrite Hd, Hv. f_equal.
        pose proof (Z.div_mod n 10 ltac:(lia)) as Hdm.
        pose proof (Z.mod_pos_bound n 10 ltac:(lia)) as Hb.
        assert (Hq : 0 <= n / 10) by (apply Z.div_pos; lia).
        lia.
      * rewrite Nat2Z.inj_succ, Z.pow_succ_r in Hn by lia.
        split; [apply Z.div_pos; lia |].
        apply Z.div_lt_upper_bound; lia.
Qed.

Lemma toString_digits (n : Z) :
  0 <= n < 10 ^ 21 ->
  digits_value (Number_toString n) 0 = Some (Z.to_N n).
Proof.
  intros Hn. unfold Number_toString, Engine.integer_toString.
  destruct (Z.ltb_spec n 0); [lia |].
  apply (decimal_digits_value 21 n ""). exact Hn.
Qed.

Lemma toString_negative (n : Z) :
  - 10 ^ 21 < n < 0 ->
  exists r,
    Number_toString n = String "-" r /\ digits_value r 0 = Some (Z.to_N (- n)).
Proof.
  intros Hn. unfold Number_toString, Engine.integer_toString.
  destruct (Z.ltb_spec n 0); [| lia].
  eexists. split; [reflexivity |].
  apply (decimal_digits_value 21 (- n) ""). lia.
Qed.

(** Distinct integers have distinct decimal forms. *)
Lemma toString_injective (a b : Z) :
  Z.abs a < 10 ^ 21 -> Z.abs b < 10 ^ 21 ->
  Number_toString a = Number_toString b -> a = b.
Proof.
  intros Ha Hb Heq.
  destruct (Z.ltb_spec a 0) as [Hna | Hpa]; destruct (Z.ltb_spec b 0) as [Hnb | Hpb].
  - destruct (toString_negative a ltac:(lia)) as (ra & Era & Hra).
    destruct (toString_negative b ltac:(lia)) as (rb & Erb & Hrb).
    rewrite Era, Erb in Heq. injection Heq as Hr. rewrite Hr in Hra.
    rewrite Hra in Hrb. injection Hrb as Hv. lia.
  - destruct (toString_negative a ltac:(lia)) as (ra & Era & _).
    pose proof (toString_digits b ltac:(lia)) as Hdb.
    rewrite <- Heq, Era in Hdb. discriminate.
  - destruct (toString_negative b ltac:(lia)) as (rb & Erb & _).
    pose proof (toString_digits a ltac:(lia)) as Hda.
    rewrite Heq, Erb in Hda. discriminate.
  - pose proof (toString_digits a ltac:(lia)) as Hda.
    pose proof (toString_digits b ltac:(lia)) as Hdb.
    rewrite Heq, Hdb in Hda. injection Hda as Hv. lia.
Qed.

(** The decimal form of an integer names no member of
    [Object.prototype]. *)
Lemma toString_clean (a : Z) :
  Z.abs a < 10 ^ 21 -> is_proto_name (Number_toString a) = false.
Proof.
  intros Ha. destruct (is_proto_name (Number_toString a)) eqn:Hp; [| reflexivity].
  exfalso. unfold is_proto_name in Hp. apply existsb_exists in Hp.
  destruct Hp as (x & Hin & Hx). apply String.eqb_eq in Hx.
  destruct (Z.ltb_spec a 0) as [Hna | Hpa].
  - destruct (toString_negative a ltac:(lia)) as (r & Er & _).
    rewrite Er in Hx. subst x. simpl in Hin.
    repeat (destruct Hin as [Hin | Hin]; [discriminate |]). contradiction.
  - pose proof (toString_digits a ltac:(lia)) as Hd. rewrite Hx in Hd.
    simpl in Hin.
    repeat (destruct Hin as [Hin | Hin]; [subst x; discriminate |]).
    contradiction.
Qed.

(** *** [Math.min], [Math.max] and the loop *)

Lemma fold_min_spec (l : list Z) (a : Z) :
  let m := fold_left Z.min l a in
  m <= a /\ (forall x, In x l -> m <= x) /\ (m = a \/ In m l).
Proof.
  revert a. induction l as [| y l IH]; intros a; simpl.
  - repeat split; [lia | intros x [] | left; reflexivity].
  - destruct (IH (Z.min a y)) as (H1 & H2 & H3). repeat split.
    + lia.
    + intros x [<- | Hx]; [lia | apply H2; exact Hx].
    + destruct H3 as [H3 | H3]; [| right; right; exact H3].
      rewrite H3.
      destruct (Z.min_spec a y) as [[_ Hm] | [_ Hm]];
        [left; exact Hm | right; left; symmetry; exact Hm].
Qed.

Lemma fold_max_spec (l : list Z) (a : Z) :
  let m := fold_left Z.max l a in
  a <= m /\ (forall x, In x l -> x <= m) /\ (m = a \/ In m l).
Proof.
  revert a. induction l as [| y l IH]; intros a; simpl.
  - repeat split; [lia | intros x [] | left; reflexivity].
  - destruct (IH (Z.max a y)) as (H1 & H2 & H3). repeat split.
    + lia.
    + intros x [<- | Hx]; [lia | apply H2; exact Hx].
    + destruct H3 as [H3 | H3]; [| right; right; exact H3].
      rewrite H3.
      destruct (Z.max_spec a y) as [[_ Hm] | [_ Hm]];
        [right; left; symmetry; exact Hm | left; exact Hm].
Qed.

Lemma Math_min_spec (values : list Z) :
  values <> [] ->
  exists lo, Math_min values = Some lo
             /\ In lo values /\ forall x, In x values -> lo <= x.
Proof.
  destruct values as [| v values]; [contradiction |]. intros _.
  destruct (fold_min_spec values v) as (H1 & H2 & H3).
  eexists. split; [reflexivity |]. split.
  - destruct H3 as [-> | H3]; [left; reflexivity | right; exact H3].
  - intros x [<- | Hx]; [exact H1 | apply H2; exact Hx].
Qed.

Lemma Math_max_spec (values : list Z) :
  values <> [] ->
  exists hi, Math_max values = Some hi
             /\ In hi values /\ forall x, In x values -> x <= hi.
Proof.
  destruct values as [| v values]; [contradiction |]. intros _.
  destruct (fold_max_spec values v) as (H1 & H2 & H3).
  eexists. split; [reflexivity |]. split.
  - destruct H3 as [-> | H3]; [left; reflexivity | right; exact H3].
  - intros x [<- | Hx]; [exact H1 | apply H2; exact Hx].
Qed.

Lemma loop_indices_spec (lo hi : Z) :
  lo <= hi ->
  let range := loop_indices (Some lo) (Some hi) in
  (forall i, In i range <-> lo <= i <= hi)
  /\ NoDup range
  /\ List.length range = Z.to_nat (hi - lo + 1).
Proof.
  intros Hle range. subst range. unfold loop_indices. split; [| split].
  - intros i. rewrite in_map_iff. split.
    + intros (k & <- & Hk). apply in_seq in Hk. lia.
    + intros Hi. exists (Z.to_nat (i - lo)). split; [lia |].
      apply in_seq. lia.
  - apply NoDup_map_NoDup_ForallPairs; [| apply seq_NoDup].
    intros x y _ _ Hxy. lia.
  - rewrite length_map, length_seq. reflexivity.
Qed.

Lemma count_occ_toString (values : list Z) (i : Z) :
  Forall (fun v => Z.abs v < 10 ^ 21) values ->
  Z.abs i < 10 ^ 21 ->
  occurrences (Number_toString i) (map Number_toString values)
  = Z.of_nat (count_occ Z.eq_dec values i).
Proof.
  intros Hv Hi. unfold occurrences. f_equal.
  induction values as [| v values IH]; [reflexivity |].
  inversion Hv as [| ? ? Hv1 Hv2]; subst. simpl.
  destruct (Z.eq_dec v i) as [-> | Hne].
  - destruct (string_dec (Number_toString i) (Number_toString i));
      [| contradiction]. rewrite (IH Hv2). reflexivity.
  - destruct (string_dec (Number_toString v) (Number_toString i)) as [He | _].
    + apply toString_injective in He; [contradiction | assumption | assumption].
    + apply IH. exact Hv2.
Qed.

Lemma total_indicator_Z (a : Z) (l : list Z) :
  NoDup l -> In a l ->
  total (map (fun i => if Z.eq_dec a i then 1 else 0) l) = 1.
Proof.
  induction l as [| x l IH]; intros Hnd Hin; [contradiction |].
  apply NoDup_cons_iff in Hnd. destruct Hnd as [Hnx Hnd]. simpl.
  destruct (Z.eq_dec a x) as [-> | Hne].
  - rewrite total_map_zero; [reflexivity |].
    intros y Hy. destruct (Z.eq_dec x y) as [-> | _]; [contradiction | reflexivity].
  - destruct Hin as [Heq | Hin]; [congruence |].
    rewrite (IH Hnd Hin). reflexivity.
Qed.

Lemma total_count_occ (values l : list Z) :
  NoDup l -> (forall v, In v values -> In v l) ->
  total (map (fun i => Z.of_nat (count_occ Z.eq_dec values i)) l)
  = Z.of_nat (List.length values).
Proof.
  intros Hnd. induction values as [| a values IH]; intros Hcov.
  - apply total_map_zero. intros; reflexivity.
  - assert (Hstep : forall i,
               Z.of_nat (count_occ Z.eq_dec (a :: values) i)
               = Z.of_nat (count_occ Z.eq_dec values i)
                 + (if Z.eq_dec a i then 1 else 0)).
    { intros i. simpl. destruct (Z.eq_dec a i); lia. }
    rewrite (map_ext _ _ Hstep), total_map_add, IH, total_indicator_Z.
    + simpl List.length. lia.
    + exact Hnd.
    + apply Hcov. left. reflexivity.
    + intros v Hv. apply Hcov. right. exact Hv.
Qed.

Section Page.
Context `{Host}.

Lemma fold_left_keys (values : list Z) (d : JsObject) :
  fold_left (fun bins value => increment bins (Number_toString value)) values d
  = fold_left increment (map Number_toString values) d.
Proof.
  revert d. induction values as [| v values IH]; intros d; simpl;
    [reflexivity | apply IH].
Qed.

(** X17. [prepareHistogramData] on a non-empty array of integers: the labels
    are the decimal forms of all the integers from the least value to
    the greatest, one after the other; the datum under a label is the
    number of values equal to it, 0 for an integer that does not occur;
    and the data add up to the number of values. *)
Theorem prepareHistogramData_zero_filled (values : list Z) :
  Forall safe_integer values ->
  values <> [] ->
  exists lo hi,
    Math_min values = Some lo /\ Math_max values = Some hi /\ lo <= hi
    /\ let range := loop_indices (Some lo) (Some hi) in
       (forall i, In i range <-> lo <= i <= hi)
       /\ List.length range = Z.to_nat (hi - lo + 1)
       /\ prepareHistogramData values
          = (map Number_toString range,
             map (fun i => count (Z.of_nat (count_occ Z.eq_dec values i))) range)
       /\ total (map (fun i => Z.of_nat (count_occ Z.eq_dec values i)) range)
          = Z.of_nat (List.length values).
Proof.
  intros Hsafe Hne.
  destruct (Math_min_spec values Hne) as (lo & Hmin & Hlo_in & Hlo).
  destruct (Math_max_spec values Hne) as (hi & Hmax & Hhi_in & Hhi).
  assert (Hle : lo <= hi) by (apply Hhi; exact Hlo_in).
  exists lo, hi. split; [exact Hmin |]. split; [exact Hmax |]. split; [exact Hle |].
  destruct (loop_indices_spec lo hi Hle) as (Hrange & Hnd & Hlen).
  cbv zeta. split; [exact Hrange |]. split; [exact Hlen |].
  assert (Hbound : forall v, safe_integer v -> Z.abs v < 10 ^ 21).
  { unfold safe_integer. intros v Hv.
    assert (9007199254740991 < 10 ^ 21) by reflexivity. lia. }
  assert (Hvals : Forall (fun v => Z.abs v < 10 ^ 21) values).
  { eapply Forall_impl; [| exact Hsafe]. intros v. apply Hbound. }
  assert (Hin_range : forall i, In i (loop_indices (Some lo) (Some hi)) ->
                                Z.abs i < 10 ^ 21).
  { intros i Hi. apply Hrange in Hi. rewrite Forall_forall in Hvals.
    pose proof (Hvals lo Hlo_in). pose proof (Hvals hi Hhi_in). lia. }
  split.
  - unfold prepareHistogramData. rewrite Hmin, Hmax. f_equal.
    rewrite fold_left_keys.
    set (keys := map Number_toString values).
    assert (Hclean : Forall (fun k => is_proto_name k = false) keys).
    { subst keys. apply Forall_map. eapply Forall_impl; [| exact Hvals].
      intros v. apply toString_clean. }
    pose proof (fold_increment_tallies keys [] [] Hclean tallies_nil)
      as (_ & Hdom & Hval).
    simpl in Hdom, Hval.
    set (bins := fold_left increment keys []) in *.
    apply map_ext_in. intros i Hi. pose proof (Hin_range i Hi) as Hib.
    destruct (in_dec Z.eq_dec i values) as [Hiv | Hiv].
    + assert (Hk : In (Number_toString i) keys)
        by (subst keys; apply in_map; exact Hiv).
      unfold prop_get. rewrite (Hval _ Hk).
      pose proof (occurrences_pos _ _ Hk) as Hpos.
      rewrite <- (count_occ_toString values i Hvals Hib). fold keys.
      unfold or_zero, count. simpl.
      destruct (Z.eqb_spec (occurrences (Number_toString i) keys) 0);
        [lia | reflexivity].
    + assert (Hk : ~ In (Number_toString i) keys).
      { subst keys. intros Hk. apply in_map_iff in Hk.
        destruct Hk as (v & Hv & Hvin). apply Hiv.
        rewrite Forall_forall in Hvals.
        rewrite <- (toString_injective v i (Hvals v Hvin) Hib Hv). exact Hvin. }
      assert (Ha : assoc (Number_toString i) bins = None).
      { apply assoc_none. intros Hd. apply Hk, Hdom, Hd. }
      unfold prop_get. rewrite Ha, (toString_clean i Hib).
      apply (count_occ_not_In Z.eq_dec) in Hiv. rewrite Hiv. reflexivity.
  - apply total_count_occ; [exact Hnd |].
    intros v Hv. apply Hrange. split; [apply Hlo | apply Hhi]; exact Hv.
Qed.

End Page.

(** *** The median *)

Lemma sorted_perm (values : list Z) : Permutation (sorted values) values.
Proof. unfold sorted. apply sort_by_perm. Qed.

Lemma sorted_ascending (values : list Z) : StronglySorted Z.le (sorted values).
Proof.
  apply Sorted_StronglySorted; [intros a b c; apply Z.le_trans |].
  unfold sorted.
  apply (Sorted_in_impl (not_after (fun a b => sign (Some (a - b))))).
  - intros a b _ _. unfold not_after, sign. intros Hng.
    destruct (Z.compare_spec (a - b) 0); try lia. contradiction.
  - apply sort_by_sorted. intros a b. unfold sign. intros H1 H2.
    apply Z.compare_gt_iff in H1. apply Z.compare_gt_iff in H2. lia.
Qed.

Lemma sorted_app_inv (l1 l2 : list Z) (m : Z) :
  StronglySorted Z.le (l1 ++ m :: l2) ->
  Forall (fun x => x <= m) l1 /\ Forall (fun x => m <= x) l2.
Proof.
  induction l1 as [| x l1 IH]; simpl; intros Hs.
  - inversion Hs; subst. split; [constructor | assumption].
  - inversion Hs as [| ? ? Hl Hx]; subst. destruct (IH Hl) as [H1 H2].
    split; [| exact H2]. constructor; [| exact H1].
    rewrite Forall_forall in Hx. apply Hx. apply in_or_app. right. left.
    reflexivity.
Qed.

Lemma filter_all {A : Type} (f : A -> bool) (l : list A) :
  Forall (fun x => f x = true) l -> filter f l = l.
Proof.
  induction 1 as [| x l Hx Hl IH]; simpl; [reflexivity |].
  rewrite Hx, IH. reflexivity.
Qed.

Lemma how_many_perm (test : Z -> bool) (l l' : list Z) :
  Permutation l l' -> how_many test l = how_many test l'.
Proof.
  unfold how_many. induction 1 as [| x l l' Hp IH | x y l | l l' l'' _ IH1 _ IH2];
    simpl.
  - reflexivity.
  - destruct (test x); simpl; congruence.
  - destruct (test x), (test y); reflexivity.
  - congruence.
Qed.

(** X18. The median shown by the page is an element of the array at the
    middle of its sorted copy: more than half of the values (rounded
    down) are no greater than it, and at least half of them (rounded up)
    are no less. An empty array has no median, any other has one. *)
Theorem median_in_the_middle (values : list Z) :
  (values = [] -> median values = None)
  /\ (values <> [] -> exists m, median values = Some m)
  /\ forall m,
       median values = Some m ->
       In m values
       /\ (List.length values / 2 < how_many (fun v => (v <=? m)%Z) values)%nat
       /\ (List.length values - List.length values / 2
           <= how_many (fun v => (m <=? v)%Z) values)%nat.
Proof.
  pose proof (sorted_perm values) as Hp.
  pose proof (Permutation_length Hp) as Hlen.
  split; [| split].
  - intros ->. reflexivity.
  - intros Hne. unfold median.
    destruct (nth_error (sorted values) (List.length (sorted values) / 2))
      as [m |] eqn:Hn; [eauto |].
    apply nth_error_None in Hn. rewrite Hlen in Hn.
    destruct values as [| v values]; [contradiction |]. simpl List.length in Hn.
    pose proof (Nat.div_lt (S (List.length values)) 2 ltac:(lia) ltac:(lia)). lia.
  - intros m Hm. unfold median in Hm.
    apply nth_error_split in Hm. destruct Hm as (l1 & l2 & Hs & Hk).
    pose proof (sorted_ascending values) as Hsorted. rewrite Hs in Hsorted.
    destruct (sorted_app_inv l1 l2 m Hsorted) as [Hl1 Hl2].
    rewrite Hlen in Hk.
    split; [| split].
    + apply (Permutation_in _ Hp). rewrite Hs. apply in_or_app. right. left.
      reflexivity.
    + rewrite <- (how_many_perm _ _ _ Hp). unfold how_many. rewrite Hs, filter_app.
      rewrite (filter_all _ l1)
        by (eapply Forall_impl; [| exact Hl1]; intros x Hx; apply Z.leb_le; exact Hx).
      cbn [filter]. rewrite Z.leb_refl. rewrite length_app. cbn [List.length]. lia.
    + rewrite <- (how_many_perm _ _ _ Hp). unfold how_many. rewrite Hs, filter_app.
      cbn [filter]. rewrite Z.leb_refl.
      rewrite (filter_all _ l2)
        by (eapply Forall_impl; [| exact Hl2]; intros x Hx; apply Z.leb_le; exact Hx).
      rewrite length_app. cbn [List.length].
      assert (Hall : List.length values = (List.length l1 + S (List.length l2))%nat).
      { rewrite <- Hlen, Hs, length_app. reflexivity. }
      lia.
Qed.

#[local] Existing Instance Engine.host.

(** The array of the page: 49 labels from 0 to 48, 7 values equal to 0,
    none equal to 1, and the median 28. *)
Example prepareHistogramData_of_the_page :
  List.length (fst (prepareHistogramData histogramData)) = 49%nat
  /\ firstn 2 (snd (prepareHistogramData histogramData)) = [count 7; count 0]
  /\ median histogramData = Some 28.
Proof. repeat split; reflexivity. Qed.

Lemma prepareHistogramData_zero_filled_witness :
  Forall safe_integer [3; -1; 3]
  /\ prepareHistogramData [3; -1; 3]
     = (["-1"; "0"; "1"; "2"; "3"], [count 1; count 0; count 0; count 0; count 2]).
Proof.
  assert (Hs : Forall safe_integer [3; -1; 3]).
  { repeat constructor; unfold safe_integer; simpl; lia. }
  split; [exact Hs |].
  destruct (prepareHistogramData_zero_filled [3; -1; 3] Hs ltac:(discriminate))
    as (lo & hi & Hmin & Hmax & _ & _ & _ & Hrun & _).
  injection Hmin as <-. injection Hmax as <-. rewrite Hrun. reflexivity.
Defined.

Lemma median_in_the_middle_witness :
  median [3; -1; 3; 7] = Some 3
  /\ (2 < how_many (fun v => (v <=? 3)%Z) [3; -1; 3; 7]%Z)%nat.
Proof.
  split; [reflexivity |].
  destruct (median_in_the_middle [3; -1; 3; 7]) as (_ & _ & Hm).
  destruct (Hm 3 eq_refl) as (_ & Hlow & _). exact Hlow.
Defined.

End ModeleIAFacts.

(** ** The order of bucket keys and the order of time *)

Module CalendarFacts.
Import JS Dashboard.

Lemma year_of_era_bounds (doe : Z) :
  0 <= doe <= 146096 ->
  0 <= year_of_era doe <= 399
  /\ first_day_of_year (year_of_era doe) <= doe
  /\ doe - first_day_of_year (year_of_era doe) <= 365
  /\ (doe < first_day_of_year (year_of_era doe + 1) \/ doe = 146096).
Proof.
  unfold first_day_of_year, year_of_era. intros Hd.
  repeat split; Z.div_mod_to_equations; lia.
Qed.

Lemma first_day_of_year_mono (y1 y2 : Z) :
  y1 <= y2 -> first_day_of_year y1 <= first_day_of_year y2.
Proof. unfold first_day_of_year. intros Hy. Z.div_mod_to_equations. lia. Qed.

Lemma month_from_March_bounds (doy : Z) :
  0 <= doy <= 365 ->
  0 <= month_from_March doy <= 11
  /\ first_day_of_month (month_from_March doy) <= doy
  /\ doy < first_day_of_month (month_from_March doy + 1)
  /\ doy - first_day_of_month (month_from_March doy) + 1 <= 31.
Proof.
  unfold month_from_March, first_day_of_month. intros Hd.
  repeat split; Z.div_mod_to_equations; lia.
Qed.

Lemma first_day_of_month_mono (a b : Z) :
  a <= b -> first_day_of_month a <= first_day_of_month b.
Proof. unfold first_day_of_month. intros Hy. Z.div_mod_to_equations. lia. Qed.

(** [civil_from_days] through its pieces. *)
Lemma civil_from_days_pieces (days : Z) :
  let era := (days + 719468) / 146097 in
  let doe := (days + 719468) - era * 146097 in
  let yoe := year_of_era doe in
  let doy := doe - first_day_of_year yoe in
  let mp := month_from_March doy in
  let d := doy - first_day_of_month mp + 1 in
  let m := if mp <? 10 then mp + 3 else mp - 9 in
  civil_from_days days
  = (yoe + era * 400 + (if m <=? 2 then 1 else 0), m, d).
Proof. reflexivity. Qed.

Lemma month_day_bounds (doy : Z) :
  0 <= doy <= 365 ->
  301 <= month_day_code doy <= 10231
  /\ 1 <= doy - first_day_of_month (month_from_March doy) + 1 <= 31.
Proof.
  intros Hd. unfold month_day_code.
  destruct (month_from_March_bounds doy Hd) as (Hb & Hf & Hn & Hd31).
  set (f := first_day_of_month (month_from_March doy)) in *.
  set (mp := month_from_March doy) in *.
  cbv zeta.
  destruct (Z.ltb_spec mp 10);
    repeat match goal with
           | |- context [?a <=? 2] => destruct (Z.leb_spec a 2)
           end; lia.
Qed.

Lemma month_day_mono (doy1 doy2 : Z) :
  0 <= doy1 -> doy1 < doy2 -> doy2 <= 365 ->
  month_day_code doy1 < month_day_code doy2.
Proof.
  intros H0 Hlt H365. unfold month_day_code. cbv zeta.
  destruct (month_from_March_bounds doy1 ltac:(lia)) as (Hb1 & Hf1 & Hn1 & Hd1).
  destruct (month_from_March_bounds doy2 ltac:(lia)) as (Hb2 & Hf2 & Hn2 & Hd2).
  assert (Hmp : month_from_March doy1 <= month_from_March doy2).
  { destruct (Z.le_gt_cases (month_from_March doy1) (month_from_March doy2))
      as [Hle | Hgt]; [exact Hle |].
    pose proof (first_day_of_month_mono (month_from_March doy2 + 1)
                  (month_from_March doy1) ltac:(lia)). lia. }
  destruct (Z.eq_dec (month_from_March doy1) (month_from_March doy2)) as [Heq | Hne].
  - rewrite Heq in *.
    set (f := first_day_of_month (month_from_March doy2)) in *.
    set (mp := month_from_March doy2) in *.
    destruct (Z.ltb_spec mp 10);
      repeat match goal with
             | |- context [?a <=? 2] => destruct (Z.leb_spec a 2)
             end; lia.
  - set (f1 := first_day_of_month (month_from_March doy1)) in *.
    set (f2 := first_day_of_month (month_from_March doy2)) in *.
    set (mp1 := month_from_March doy1) in *.
    set (mp2 := month_from_March doy2) in *.
    destruct (Z.ltb_spec mp1 10); destruct (Z.ltb_spec mp2 10);
      repeat match goal with
             | |- context [?a <=? 2] => destruct (Z.leb_spec a 2)
             end; lia.
Qed.

(** The date number through the pieces of [civil_from_days]. *)
Lemma date_number_pieces (days : Z) :
  let era := (days + 719468) / 146097 in
  let doe := (days + 719468) - era * 146097 in
  let yoe := year_of_era doe in
  let doy := doe - first_day_of_year yoe in
  date_number days = (yoe + era * 400) * 10000 + month_day_code doy
  /\ 0 <= doe <= 146096 /\ 0 <= yoe <= 399 /\ 0 <= doy <= 365.
Proof.
  intros era doe yoe doy.
  assert (Hdoe : 0 <= doe <= 146096)
    by (subst doe era; Z.div_mod_to_equations; lia).
  destruct (year_of_era_bounds doe Hdoe) as (Hy & Hf & Hl & _).
  fold yoe in Hy, Hf, Hl.
  split; [| repeat split; lia].
  unfold date_number. rewrite civil_from_days_pieces. cbv zeta.
  fold era. fold doe. fold yoe. fold doy. unfold month_day_code. cbv zeta. ring.
Qed.

(** A later day has a greater date number. *)
Lemma date_number_mono (z1 z2 : Z) :
  z1 < z2 -> date_number z1 < date_number z2.
Proof.
  intros Hlt.
  destruct (date_number_pieces z1) as (E1 & Hd1 & Hy1 & Hdoy1).
  destruct (date_number_pieces z2) as (E2 & Hd2 & Hy2 & Hdoy2).
  cbv zeta in *. rewrite E1, E2.
  set (e1 := (z1 + 719468) / 146097) in *.
  set (e2 := (z2 + 719468) / 146097) in *.
  set (doe1 := z1 + 719468 - e1 * 146097) in *.
  set (doe2 := z2 + 719468 - e2 * 146097) in *.
  assert (He : e1 < e2 \/ (e1 = e2 /\ doe1 < doe2)).
  { subst doe1 doe2 e1 e2. Z.div_mod_to_equations. lia. }
  destruct (year_of_era_bounds doe1 Hd1) as (_ & Hf1 & _ & Hn1).
  destruct (year_of_era_bounds doe2 Hd2) as (_ & Hf2 & _ & Hn2).
  destruct (month_day_bounds _ Hdoy1) as [Hc1 _].
  destruct (month_day_bounds _ Hdoy2) as [Hc2 _].
  assert (Hlast : year_of_era 146096 = 399) by reflexivity.
  destruct He as [He | [He Hdoe]]; [lia |].
  assert (Hyy : year_of_era doe1 <= year_of_era doe2).
  { destruct (Z.le_gt_cases (year_of_era doe1) (year_of_era doe2))
      as [Hle | Hgt]; [exact Hle |].
    pose proof (first_day_of_year_mono (year_of_era doe2 + 1) (year_of_era doe1)
                  ltac:(lia)).
    destruct Hn2 as [Hn2 | Hn2]; [lia |]. rewrite Hn2, Hlast in Hgt. lia. }
  destruct (Z.eq_dec (year_of_era doe1) (year_of_era doe2)) as [Heq | Hne].
  - rewrite Heq in *.
    pose proof (month_day_mono
                  (doe1 - first_day_of_year (year_of_era doe2))
                  (doe2 - first_day_of_year (year_of_era doe2))
                  ltac:(lia) ltac:(lia) ltac:(lia)).
    lia.
  - lia.
Qed.

Lemma civil_from_days_fields (days : Z) :
  let '(y, m, d) := civil_from_days days in
  1 <= m <= 12 /\ 1 <= d <= 31 /\ date_number days = y * 10000 + m * 100 + d.
Proof.
  unfold date_number. rewrite civil_from_days_pieces. cbv zeta.
  destruct (date_number_pieces days) as (_ & Hd & Hy & Hdoy). cbv zeta in Hdoy.
  destruct (month_from_March_bounds _ Hdoy) as (Hb & _).
  destruct (month_day_bounds _ Hdoy) as (_ & Hday).
  split; [| split; [exact Hday | reflexivity]].
  match goal with |- context [?a <? 10] => destruct (Z.ltb_spec a 10) end; lia.
Qed.

Lemma civil_from_days_year (days : Z) :
  -719528 <= days <= 2932896 ->
  let '(y, _, _) := civil_from_days days in 0 <= y <= 9999.
Proof.
  intros [Hlo Hhi].
  pose proof (civil_from_days_fields days) as Hf.
  destruct (civil_from_days days) as [[y m] d].
  destruct Hf as (Hm & Hd & Hn).
  assert (H1 : 101 <= date_number days).
  { destruct (Z.eq_dec days (-719528)) as [-> | Hne]; [vm_compute; discriminate |].
    pose proof (date_number_mono (-719528) days ltac:(lia)) as Hlt.
    change (date_number (-719528)) with 101 in Hlt. lia. }
  assert (H2 : date_number days <= 99991231).
  { destruct (Z.eq_dec days 2932896) as [-> | Hne]; [vm_compute; discriminate |].
    pose proof (date_number_mono days 2932896 ltac:(lia)) as Hlt.
    change (date_number 2932896) with 99991231 in Hlt. lia. }
  lia.
Qed.

Lemma digit_char_compare (a b : Z) :
  Ascii.compare (digit_char a) (digit_char b) = (a mod 10 ?= b mod 10).
Proof.
  unfold Ascii.compare, digit_char.
  pose proof (Z.mod_pos_bound a 10 ltac:(lia)).
  pose proof (Z.mod_pos_bound b 10 ltac:(lia)).
  rewrite !N_ascii_embedding by lia.
  rewrite <- N2Z.inj_compare. rewrite !N2Z.inj_add, !Z2N.id by lia.
  apply Z.add_compare_mono_l.
Qed.

Lemma pad_compare (w : nat) (a b : Z) (s s' : string) :
  String.compare (pad w a ++ s) (pad w b ++ s')
  = match a mod 10 ^ Z.of_nat w ?= b mod 10 ^ Z.of_nat w with
    | Eq => String.compare s s'
    | c => c
    end.
Proof.
  induction w as [| w IH].
  - cbn [pad append]. change (10 ^ Z.of_nat 0) with 1. rewrite !Z.mod_1_r. reflexivity.
  - cbn [pad append String.compare]. rewrite digit_char_compare, IH.
    rewrite Nat2Z.inj_succ, Z.pow_succ_r by lia.
    set (p := 10 ^ Z.of_nat w).
    assert (Hp : 0 < p) by (apply Z.pow_pos_nonneg; lia).
    rewrite (Z.mul_comm 10 p).
    rewrite !(Z.rem_mul_r _ p 10) by lia.
    pose proof (Z.mod_pos_bound a p Hp). pose proof (Z.mod_pos_bound b p Hp).
    pose proof (Z.mod_pos_bound (a / p) 10 ltac:(lia)).
    pose proof (Z.mod_pos_bound (b / p) 10 ltac:(lia)).
    generalize dependent ((a / p) mod 10). generalize dependent ((b / p) mod 10).
    generalize dependent (a mod p). generalize dependent (b mod p).
    clear IH. intros v Hv u Hu y Hy x Hx.
    destruct (Z.compare_spec x y) as [E | L | G].
    + subst y. destruct (Z.compare_spec u v) as [E' | L' | G'].
      * subst v. rewrite Z.compare_refl. reflexivity.
      * assert (Hc : u + p * x < v + p * x) by lia.
        apply Z.compare_lt_iff in Hc. rewrite Hc. reflexivity.
      * assert (Hc : v + p * x < u + p * x) by lia.
        apply Z.compare_gt_iff in Hc. rewrite Hc. reflexivity.
    + assert (Hc : u + p * x < v + p * y) by nia.
      apply Z.compare_lt_iff in Hc. rewrite Hc. reflexivity.
    + assert (Hc : v + p * y < u + p * x) by nia.
      apply Z.compare_gt_iff in Hc. rewrite Hc. reflexivity.
Qed.

Lemma separator_compare (c : ascii) (s s' : string) :
  String.compare (String c "" ++ s) (String c "" ++ s') = String.compare s s'.
Proof.
  cbn [append String.compare]. unfold Ascii.compare. rewrite N.compare_refl.
  reflexivity.
Qed.

Lemma lexicographic_compare (a1 a2 b1 b2 k : Z) (r : comparison) :
  0 <= b1 < k -> 0 <= b2 < k ->
  match a1 ?= a2 with
  | Eq => match b1 ?= b2 with Eq => r | c => c end
  | c => c
  end
  = match a1 * k + b1 ?= a2 * k + b2 with Eq => r | c => c end.
Proof.
  intros Hb1 Hb2.
  destruct (Z.compare_spec a1 a2) as [E | L | G].
  - subst a2. rewrite Z.add_compare_mono_l. reflexivity.
  - assert (Hc : a1 * k + b1 < a2 * k + b2) by nia.
    apply Z.compare_lt_iff in Hc. rewrite Hc. reflexivity.
  - assert (Hc : a2 * k + b2 < a1 * k + b1) by nia.
    apply Z.compare_gt_iff in Hc. rewrite Hc. reflexivity.
Qed.

Lemma date_number_compare (z1 z2 : Z) :
  (date_number z1 ?= date_number z2) = (z1 ?= z2).
Proof.
  destruct (Z.compare_spec z1 z2) as [E | L | G].
  - subst z2. apply Z.compare_refl.
  - apply Z.compare_lt_iff, date_number_mono, L.
  - apply Z.compare_gt_iff, date_number_mono, G.
Qed.

Lemma four_digit_year_days (t : Z) :
  four_digit_year t -> -719528 <= t / msPerDay <= 2932896.
Proof.
  unfold four_digit_year, msPerDay. intros Ht. Z.div_mod_to_equations. lia.
Qed.

(** The first ten and the first thirteen characters of an ISO string
    with a four-digit year. *)
Lemma iso_of_time_slices (t : Z) :
  four_digit_year t ->
  let '(y, m, d) := civil_from_days (t / msPerDay) in
  slice0 10 (iso_of_time t)
  = (pad 4 y ++ "-" ++ pad 2 m ++ "-" ++ pad 2 d ++ "")%string
  /\ slice0 13 (iso_of_time t)
     = (pad 4 y ++ "-" ++ pad 2 m ++ "-" ++ pad 2 d ++ "T"
          ++ pad 2 (t mod msPerDay / 3600000) ++ "")%string.
Proof.
  intros Ht. apply four_digit_year_days in Ht.
  pose proof (civil_from_days_year _ Ht) as Hy.
  unfold iso_of_time.
  destruct (civil_from_days (t / msPerDay)) as [[y m] d].
  unfold year_string.
  replace ((0 <=? y) && (y <=? 9999)) with true
    by (symmetry; apply andb_true_iff; split; apply Z.leb_le; lia).
  split; cbn [pad append slice0 substring]; reflexivity.
Qed.

Lemma hour_of_day (t : Z) :
  0 <= t mod 86400000 / 3600000 < 24
  /\ t / 3600000 = t / 86400000 * 24 + t mod 86400000 / 3600000.
Proof.
  pose proof (Z.mod_pos_bound t 86400000 ltac:(lia)) as Hr.
  pose proof (Z.div_mod t 86400000 ltac:(lia)) as Hq.
  generalize dependent (t mod 86400000). generalize dependent (t / 86400000).
  intros q r Hr Hq. subst t.
  split.
  - Z.div_mod_to_equations. lia.
  - replace (86400000 * q + r) with (r + (q * 24) * 3600000) by ring.
    rewrite Z.div_add by lia. ring.
Qed.

Lemma key_compare (t1 t2 : Z) :
  four_digit_year t1 -> four_digit_year t2 ->
  String.compare (slice0 10 (iso_of_time t1)) (slice0 10 (iso_of_time t2))
  = (t1 / msPerDay ?= t2 / msPerDay)
  /\ String.compare (slice0 13 (iso_of_time t1)) (slice0 13 (iso_of_time t2))
     = (t1 / 3600000 ?= t2 / 3600000).
Proof.
  intros H1 H2.
  pose proof (iso_of_time_slices t1 H1) as S1.
  pose proof (iso_of_time_slices t2 H2) as S2.
  pose proof (civil_from_days_year _ (four_digit_year_days _ H1)) as Y1.
  pose proof (civil_from_days_year _ (four_digit_year_days _ H2)) as Y2.
  pose proof (civil_from_days_fields (t1 / msPerDay)) as F1.
  pose proof (civil_from_days_fields (t2 / msPerDay)) as F2.
  rewrite <- (date_number_compare (t1 / msPerDay) (t2 / msPerDay)).
  destruct (civil_from_days (t1 / msPerDay)) as [[y1 m1] d1].
  destruct (civil_from_days (t2 / msPerDay)) as [[y2 m2] d2].
  destruct S1 as [S1 S1'], S2 as [S2 S2'].
  destruct F1 as (Hm1 & Hd1 & N1), F2 as (Hm2 & Hd2 & N2).
  rewrite S1, S2, S1', S2', N1, N2.
  assert (Hpad : forall s s',
    String.compare (pad 4 y1 ++ "-" ++ pad 2 m1 ++ "-" ++ pad 2 d1 ++ s)
                   (pad 4 y2 ++ "-" ++ pad 2 m2 ++ "-" ++ pad 2 d2 ++ s')
    = match y1 * 10000 + m1 * 100 + d1 ?= y2 * 10000 + m2 * 100 + d2 with
      | Eq => String.compare s s'
      | c => c
      end).
  { intros s s'.
    rewrite pad_compare, separator_compare, pad_compare, separator_compare,
      pad_compare.
    change (10 ^ Z.of_nat 4) with 10000. change (10 ^ Z.of_nat 2) with 100.
    rewrite !Z.mod_small by lia.
    rewrite (lexicographic_compare m1 m2 d1 d2 100) by lia.
    rewrite (lexicographic_compare y1 y2 (m1 * 100 + d1) (m2 * 100 + d2) 10000)
      by lia.
    rewrite !Z.add_assoc. reflexivity. }
  split.
  - rewrite Hpad. cbn [String.compare].
    match goal with |- match ?c with _ => _ end = _ => destruct c end;
      reflexivity.
  - rewrite Hpad, separator_compare, pad_compare. cbn [String.compare].
    change (10 ^ Z.of_nat 2) with 100.
    rewrite <- N1, <- N2, date_number_compare.
    unfold msPerDay.
    destruct (hour_of_day t1) as [B1 E1]. destruct (hour_of_day t2) as [B2 E2].
    rewrite (Z.mod_small (t1 mod 86400000 / 3600000) 100),
      (Z.mod_small (t2 mod 86400000 / 3600000) 100) by lia.
    rewrite E1, E2.
    rewrite (lexicographic_compare _ _ _ _ 24 Eq) by lia.
    match goal with |- match ?c with _ => _ end = _ => destruct c end;
      reflexivity.
Qed.

Section Page.
Context `{Host}.
Variable clock : nat -> Z.

(** X19. The bucket keys order the events as their times do: for two events
    whose time strings parse to times of the years 0000 to 9999, the
    keys compare, as strings, exactly as the days (or the hours) of the
    two times compare; in particular the keys are equal exactly when the
    two times fall on the same day (in the same hour), so that sorting
    the labels as strings sorts the buckets by time. *)
Theorem bucket_key_order_is_time_order (group : TimeGrouping)
  (ev1 ev2 : EventData) (s1 s2 : string) (t1 t2 : Z) (n1 n2 : nat) :
  time_string ev1 = Some s1 -> Date_parse s1 = Some t1 -> four_digit_year t1 ->
  time_string ev2 = Some s2 -> Date_parse s2 = Some t2 -> four_digit_year t2 ->
  exists k1 k2,
    bucket_key clock group ev1 n1 = (Ok k1, n1)
    /\ bucket_key clock group ev2 n2 = (Ok k2, n2)
    /\ String.compare k1 k2
       = (bucket_number group t1 ?= bucket_number group t2).
Proof.
  intros Hs1 Hp1 Hy1 Hs2 Hp2 Hy2.
  rewrite (DashboardInvariants.bucket_key_timed clock group ev1 s1 n1 Hs1).
  rewrite (DashboardInvariants.bucket_key_timed clock group ev2 s2 n2 Hs2).
  unfold timed_key. rewrite Hs1, Hp1, Hs2, Hp2.
  destruct (key_compare t1 t2 Hy1 Hy2) as [Hday Hhour].
  do 2 eexists. split; [reflexivity |]. split; [reflexivity |].
  destruct group; [exact Hday | exact Hhour].
Qed.

End Page.

#[local] Existing Instance Engine.host.

Lemma bucket_key_order_is_time_order_witness :
  exists k1 k2,
    bucket_key (fun k => Z.of_nat k) heure
      (Engine.event "Port Scan" "2024-02-29T23:59:59.999Z") 0%nat = (Ok k1, 0%nat)
    /\ bucket_key (fun k => Z.of_nat k) heure
         (Engine.event "Port Scan" "2024-03-01T00:00:00.000Z") 0%nat = (Ok k2, 0%nat)
    /\ String.compare k1 k2
       = (bucket_number heure 1709251199999 ?= bucket_number heure 1709251200000).
Proof.
  apply (bucket_key_order_is_time_order (fun k => Z.of_nat k) heure
           (Engine.event "Port Scan" "2024-02-29T23:59:59.999Z")
           (Engine.event "Port Scan" "2024-03-01T00:00:00.000Z")
           "2024-02-29T23:59:59.999Z" "2024-03-01T00:00:00.000Z"
           1709251199999 1709251200000 0%nat 0%nat).
  - reflexivity.
  - vm_compute. reflexivity.
  - unfold four_digit_year. lia.
  - reflexivity.
  - vm_compute. reflexivity.
  - unfold four_digit_year. lia.
Defined.

(** Beyond the year 9999 the ISO string starts with a sign and six
    digits, and the key of the later day sorts first. *)
Example key_order_after_year_9999 :
  slice0 10 (iso_of_time 253402300799999) = "9999-12-31"
  /\ slice0 10 (iso_of_time 253402300800000) = "+010000-01"
  /\ String.compare (slice0 10 (iso_of_time 253402300800000))
       (slice0 10 (iso_of_time 253402300799999)) = Lt.
Proof. vm_compute. repeat split. Qed.

End CalendarFacts.
